(** * Malaysian mortgage calculator: the calculation engine

    A shallow embedding of the calculation functions of the repository
    (the core-calculations file, the constants of [js/data.js] and the
    yearly aggregation of [js/app.js]) together with the properties its
    specification states about them and further properties of the code.

    ** Number model

    JavaScript numbers are IEEE-754 doubles.  They are modelled here by the
    type [num]: an exact rational ([Fin q]) or one of the three special
    values [PInf], [NInf], [NaN].  Arithmetic on finite values is exact
    (no binary rounding error, no overflow) and follows IEEE-754 on the
    special values: [x / 0] is an infinity or [NaN], every comparison with
    [NaN] is false, [NaN] propagates through arithmetic.  The sign of zero
    is not tracked (every zero behaves like [+0]).  Every operation
    returns its rational in lowest terms ([fin]), so that equal results
    are equal for Leibniz equality.

    Loop counters and the tenure in years are integers ([Z]):
    the specification's data model types [tenureYears] as an integer, and
    [Math.pow] at a non-integer exponent has no rational value. *)

From Stdlib Require Import QArith Qround Qabs Qpower Qreduction Qminmax Lqa Lia ZArith List String Bool.
Import ListNotations.

(** ** JavaScript numbers *)

Module JS.

Inductive num : Type :=
| Fin (q : Q)
| PInf
| NInf
| NaN.

Definition fin (q : Q) : num := Fin (Qred q).

Definition ofZ (z : Z) : num := fin (inject_Z z).

(** The infinity (or NaN) whose sign is the result of a comparison with 0. *)
Definition inf_of_sign (c : comparison) : num :=
  match c with Gt => PInf | Lt => NInf | Eq => NaN end.

Definition flip (c : comparison) : comparison := CompOpp c.

Definition nadd (x y : num) : num :=
  match x, y with
  | NaN, _ | _, NaN => NaN
  | Fin a, Fin b => fin (a + b)
  | PInf, NInf | NInf, PInf => NaN
  | PInf, _ | _, PInf => PInf
  | NInf, _ | _, NInf => NInf
  end.

Definition nsub (x y : num) : num :=
  match x, y with
  | NaN, _ | _, NaN => NaN
  | Fin a, Fin b => fin (a - b)
  | PInf, PInf | NInf, NInf => NaN
  | PInf, _ | _, NInf => PInf
  | NInf, _ | _, PInf => NInf
  end.

Definition nmul (x y : num) : num :=
  match x, y with
  | NaN, _ | _, NaN => NaN
  | Fin a, Fin b => fin (a * b)
  | Fin a, PInf | PInf, Fin a => inf_of_sign (a ?= 0)
  | Fin a, NInf | NInf, Fin a => inf_of_sign (flip (a ?= 0))
  | PInf, PInf | NInf, NInf => PInf
  | PInf, NInf | NInf, PInf => NInf
  end.

Definition ndiv (x y : num) : num :=
  match x, y with
  | NaN, _ | _, NaN => NaN
  | Fin a, Fin b =>
      if Qeq_bool b 0 then inf_of_sign (a ?= 0) else fin (a / b)
  | Fin _, (PInf | NInf) => fin 0
  | PInf, Fin b => if Qle_bool 0 b then PInf else NInf
  | NInf, Fin b => if Qle_bool 0 b then NInf else PInf
  | (PInf | NInf), (PInf | NInf) => NaN
  end.

(** Relational operators: false as soon as one side is [NaN]. *)
Definition ncompare (x y : num) : option comparison :=
  match x, y with
  | NaN, _ | _, NaN => None
  | Fin a, Fin b => Some (a ?= b)
  | PInf, PInf | NInf, NInf => Some Eq
  | PInf, _ | _, NInf => Some Gt
  | NInf, _ | _, PInf => Some Lt
  end.

Definition nlt (x y : num) : bool :=
  match ncompare x y with Some Lt => true | _ => false end.
Definition nle (x y : num) : bool :=
  match ncompare x y with Some Lt | Some Eq => true | _ => false end.
Definition ngt (x y : num) : bool := nlt y x.
Definition nge (x y : num) : bool := nle y x.
(** Strict equality [===] on numbers. *)
Definition nseq (x y : num) : bool :=
  match ncompare x y with Some Eq => true | _ => false end.

Definition Math_max (x y : num) : num :=
  match ncompare x y with
  | None => NaN
  | Some Lt => y
  | Some _ => x
  end.

Definition Math_min (x y : num) : num :=
  match ncompare x y with
  | None => NaN
  | Some Gt => y
  | Some _ => x
  end.

(** [Math.round]: the nearest integer, ties towards [+Infinity]. *)
Definition Math_round (x : num) : num :=
  match x with
  | Fin a => ofZ (Qfloor (a + (1 # 2)))
  | _ => x
  end.

Definition Math_ceil (x : num) : num :=
  match x with
  | Fin a => ofZ (Qceiling a)
  | _ => x
  end.

(** [Math.pow] at an integer exponent. *)
Definition Math_pow (x : num) (n : Z) : num :=
  if (n =? 0)%Z then fin 1 else
  match x with
  | Fin a =>
      if (n <? 0)%Z && Qeq_bool a 0 then PInf else fin (a ^ n)
  | PInf => if (0 <? n)%Z then PInf else fin 0
  | NInf => if (0 <? n)%Z then (if Z.odd n then NInf else PInf) else fin 0
  | NaN => NaN
  end.

End JS.

Import JS.

Declare Scope num_scope.
Delimit Scope num_scope with num.
Bind Scope num_scope with num.
Infix "+" := nadd : num_scope.
Infix "-" := nsub : num_scope.
Infix "*" := nmul : num_scope.
Infix "/" := ndiv : num_scope.
Infix "<" := nlt : num_scope.
Infix "<=" := nle : num_scope.
Infix ">" := ngt : num_scope.
Infix ">=" := nge : num_scope.
Infix "===" := nseq (at level 70, no associativity) : num_scope.

(** Numeric literals of the source. *)
Definition lit (q : Q) : num := fin q.

Local Open Scope num_scope.

(** ** Constants of [js/data.js] *)

Record Tier : Type := mkTier { tier_min : num; tier_max : num; tier_rate : num }.

Record FirstTimeBuyerExemption : Type :=
  { ftb_maxPrice : num; ftb_exemptionRate : num }.

Record HocExemption : Type :=
  { hoc_minPrice : num; hoc_maxPrice : num; hoc_exemptionRate : num }.

Record StampDutyMOT : Type :=
  { standard : list Tier;
    firstTimeBuyerExemption : FirstTimeBuyerExemption;
    hocExemption : HocExemption }.

Definition STAMP_DUTY_MOT : StampDutyMOT :=
  {| standard :=
       [ mkTier (lit 0) (lit 100000) (lit 0.01);
         mkTier (lit 100000) (lit 500000) (lit 0.02);
         mkTier (lit 500000) (lit 1000000) (lit 0.03);
         mkTier (lit 1000000) PInf (lit 0.04) ];
     firstTimeBuyerExemption :=
       {| ftb_maxPrice := lit 500000; ftb_exemptionRate := lit 1 |};
     hocExemption :=
       {| hoc_minPrice := lit 300000;
          hoc_maxPrice := lit 2500000;
          hoc_exemptionRate := lit 0.75 |} |}.

(** ** Utility functions *)

Definition roundToTwoDecimals (n : num) : num :=
  Math_round (n * lit 100) / lit 100.

(** ** calculateMonthlyPayment *)

Record PaymentSummary : Type :=
  { monthlyPayment : num;
    totalPayment : num;
    totalInterest : num;
    effectiveRate : num }.

Definition calculateMonthlyPayment (principal annualRate : num) (tenureYears : Z)
  : PaymentSummary :=
  let monthlyRate := annualRate / lit 100 / lit 12 in
  let totalMonths := (tenureYears * 12)%Z in
  if monthlyRate === lit 0 then
    {| monthlyPayment := principal / ofZ totalMonths;
       totalPayment := principal;
       totalInterest := lit 0;
       effectiveRate := lit 0 |}
  else
    let monthlyPayment :=
      principal *
      (monthlyRate * Math_pow (lit 1 + monthlyRate) totalMonths) /
      (Math_pow (lit 1 + monthlyRate) totalMonths - lit 1) in
    let totalPayment := monthlyPayment * ofZ totalMonths in
    let totalInterest := totalPayment - principal in
    {| monthlyPayment := roundToTwoDecimals monthlyPayment;
       totalPayment := roundToTwoDecimals totalPayment;
       totalInterest := roundToTwoDecimals totalInterest;
       effectiveRate := roundToTwoDecimals ((totalInterest / principal) * lit 100) |}.

(** ** generateAmortizationSchedule *)

Module Row.
Record t : Type :=
  { month : Z;
    year : num;
    payment : num;
    principal : num;
    interest : num;
    balance : num;
    cumulativeInterest : num;
    cumulativePrincipal : num }.
End Row.

(** The variables the [for] loop updates. *)
Record ScheduleState : Type :=
  { sch_schedule : list Row.t;
    sch_balance : num;
    sch_cumulativeInterest : num;
    sch_cumulativePrincipal : num }.

(** One iteration of the loop body, at counter value [month]. *)
Definition scheduleBody (monthlyRate monthlyPayment : num)
  (st : ScheduleState) (month : Z) : ScheduleState :=
  let interestPayment := sch_balance st * monthlyRate in
  let principalPayment := monthlyPayment - interestPayment in
  let balance := Math_max (lit 0) (sch_balance st - principalPayment) in
  let cumulativeInterest := sch_cumulativeInterest st + interestPayment in
  let cumulativePrincipal := sch_cumulativePrincipal st + principalPayment in
  {| sch_schedule :=
       sch_schedule st ++
       [ {| Row.month := month;
            Row.year := Math_ceil (ofZ month / lit 12);
            Row.payment := roundToTwoDecimals monthlyPayment;
            Row.principal := roundToTwoDecimals principalPayment;
            Row.interest := roundToTwoDecimals interestPayment;
            Row.balance := roundToTwoDecimals balance;
            Row.cumulativeInterest := roundToTwoDecimals cumulativeInterest;
            Row.cumulativePrincipal := roundToTwoDecimals cumulativePrincipal |} ];
     sch_balance := balance;
     sch_cumulativeInterest := cumulativeInterest;
     sch_cumulativePrincipal := cumulativePrincipal |}.

(** The counter values [1, 2, ..., totalMonths] of
    [for (let month = 1; month <= totalMonths; month++)]. *)
Definition monthsUpTo (totalMonths : Z) : list Z :=
  map Z.of_nat (seq 1 (Z.to_nat totalMonths)).

Definition generateAmortizationSchedule (principal annualRate : num) (tenureYears : Z)
  : list Row.t :=
  let monthlyRate := annualRate / lit 100 / lit 12 in
  let totalMonths := (tenureYears * 12)%Z in
  let monthlyPayment :=
    monthlyPayment (calculateMonthlyPayment principal annualRate tenureYears) in
  sch_schedule
    (fold_left (scheduleBody monthlyRate monthlyPayment)
       (monthsUpTo totalMonths)
       {| sch_schedule := [];
          sch_balance := principal;
          sch_cumulativeInterest := lit 0;
          sch_cumulativePrincipal := lit 0 |}).

(** ** calculateExtraPaymentImpact *)

(** The variables the [while] loop updates. *)
Record SimState : Type :=
  { sim_balance : num;
    sim_month : Z;
    sim_totalInterestPaid : num;
    sim_totalPaid : num }.

(** Lines 102-106: the lump sum, applied in the month [lumpSumMonth]. *)
Definition applyLumpSum (lumpSum lumpSumMonth : num) (s : SimState) : SimState :=
  if (ofZ (sim_month s) === lumpSumMonth) && (lumpSum > lit 0) then
    {| sim_balance := Math_max (lit 0) (sim_balance s - lumpSum);
       sim_month := sim_month s;
       sim_totalInterestPaid := sim_totalInterestPaid s;
       sim_totalPaid := sim_totalPaid s + lumpSum |}
  else s.

(** Lines 110-123: interest, regular principal and the two ways a month
    is paid. *)
Definition payMonth (originalPayment monthlyRate extraMonthly : num) (s : SimState)
  : SimState :=
  let interestPayment := sim_balance s * monthlyRate in
  let regularPrincipal := originalPayment - interestPayment in
  let totalPrincipalPayment := regularPrincipal + extraMonthly in
  if sim_balance s <= totalPrincipalPayment + interestPayment then
    {| sim_balance := lit 0;
       sim_month := sim_month s;
       sim_totalInterestPaid := sim_totalInterestPaid s + interestPayment;
       sim_totalPaid := sim_totalPaid s + (sim_balance s + interestPayment) |}
  else
    {| sim_balance := sim_balance s - totalPrincipalPayment;
       sim_month := sim_month s;
       sim_totalInterestPaid := sim_totalInterestPaid s + interestPayment;
       sim_totalPaid := sim_totalPaid s + (originalPayment + extraMonthly) |}.

Definition nextMonth (s : SimState) : SimState :=
  {| sim_balance := sim_balance s;
     sim_month := sim_month s + 1;
     sim_totalInterestPaid := sim_totalInterestPaid s;
     sim_totalPaid := sim_totalPaid s |}.

(** [while (balance > 0) { ... }]: [fuel] bounds the number of iterations;
    [None] means that the loop is still running when the fuel is spent. *)
Fixpoint simulate (fuel : nat)
  (originalPayment monthlyRate extraMonthly lumpSum lumpSumMonth : num)
  (s : SimState) : option SimState :=
  if sim_balance s > lit 0 then
    match fuel with
    | O => None
    | S fuel' =>
        let s1 := applyLumpSum lumpSum lumpSumMonth (nextMonth s) in
        if sim_balance s1 <= lit 0 then Some s1
        else
          simulate fuel' originalPayment monthlyRate extraMonthly lumpSum lumpSumMonth
            (payMonth originalPayment monthlyRate extraMonthly s1)
    end
  else Some s.

Module Extra.
Record original : Type :=
  { o_monthlyPayment : num;
    o_totalMonths : Z;
    o_totalYears : Z;
    o_totalInterest : num;
    o_totalPayment : num }.
Record withExtraPayments : Type :=
  { monthlyPayment : num;
    totalMonths : Z;
    totalYears : num;
    totalInterest : num;
    totalPayment : num }.
Record savings : Type :=
  { monthsSaved : Z;
    yearsSaved : num;
    interestSaved : num;
    totalSaved : num }.
Record t : Type :=
  { orig : original;
    withExtra : withExtraPayments;
    saved : savings }.
End Extra.

Definition calculateExtraPaymentImpact (fuel : nat)
  (principal annualRate : num) (tenureYears : Z)
  (extraMonthly lumpSum lumpSumMonth : num) : option Extra.t :=
  let original := calculateMonthlyPayment principal annualRate tenureYears in
  let monthlyRate := annualRate / lit 100 / lit 12 in
  match simulate fuel (monthlyPayment original) monthlyRate
          extraMonthly lumpSum lumpSumMonth
          {| sim_balance := principal;
             sim_month := 0;
             sim_totalInterestPaid := lit 0;
             sim_totalPaid := lit 0 |} with
  | None => None
  | Some s =>
      let month := sim_month s in
      let totalInterestPaid := sim_totalInterestPaid s in
      let totalPaid := sim_totalPaid s in
      let originalTotalMonths := (tenureYears * 12)%Z in
      Some
        {| Extra.orig :=
             {| Extra.o_monthlyPayment := monthlyPayment original;
                Extra.o_totalMonths := originalTotalMonths;
                Extra.o_totalYears := tenureYears;
                Extra.o_totalInterest := totalInterest original;
                Extra.o_totalPayment := totalPayment original |};
           Extra.withExtra :=
             {| Extra.monthlyPayment := monthlyPayment original + extraMonthly;
                Extra.totalMonths := month;
                Extra.totalYears := roundToTwoDecimals (ofZ month / lit 12);
                Extra.totalInterest := roundToTwoDecimals totalInterestPaid;
                Extra.totalPayment := roundToTwoDecimals totalPaid |};
           Extra.saved :=
             {| Extra.monthsSaved := (originalTotalMonths - month)%Z;
                Extra.yearsSaved :=
                  roundToTwoDecimals (ofZ (originalTotalMonths - month) / lit 12);
                Extra.interestSaved :=
                  roundToTwoDecimals (totalInterest original - totalInterestPaid);
                Extra.totalSaved :=
                  roundToTwoDecimals (totalPayment original - totalPaid) |} |}
  end.

(** ** compareRefinancing *)

Record CurrentLoan : Type :=
  { cl_balance : num; cl_rate : num; cl_remainingYears : Z }.

Record NewLoan : Type :=
  { nl_rate : num; nl_tenureYears : Z; nl_closingCosts : num }.

(** A field that holds either a number or the string ['N/A']. *)
Inductive NumOrNA : Type :=
| NA
| Num (n : num).

Module Refi.
Record current : Type :=
  { c_monthlyPayment : num;
    c_totalInterest : num;
    c_totalPayment : num;
    remainingMonths : Z }.
Record refinanced : Type :=
  { r_monthlyPayment : num;
    r_totalInterest : num;
    r_totalPayment : num;
    newTenureMonths : Z;
    closingCosts : num }.
Record comparison : Type :=
  { monthlyDifference : num;
    totalInterestSaved : num;
    breakEvenMonths : NumOrNA;
    breakEvenYears : NumOrNA;
    netSavings : num;
    worthRefinancing : bool }.
Record t : Type :=
  { cur : current;
    refi : refinanced;
    cmp : comparison }.
End Refi.

(** The local constants of [compareRefinancing] that the comparison is
    built from (lines 174-183). *)
Definition refi_monthlyDifference (currentLoan : CurrentLoan) (newLoan : NewLoan) : num :=
  monthlyPayment (calculateMonthlyPayment (cl_balance currentLoan) (cl_rate currentLoan)
                    (cl_remainingYears currentLoan))
  - monthlyPayment (calculateMonthlyPayment (cl_balance currentLoan) (nl_rate newLoan)
                      (nl_tenureYears newLoan)).

Definition refi_netSavings (currentLoan : CurrentLoan) (newLoan : NewLoan) : num :=
  (totalInterest (calculateMonthlyPayment (cl_balance currentLoan) (cl_rate currentLoan)
                    (cl_remainingYears currentLoan))
   - totalInterest (calculateMonthlyPayment (cl_balance currentLoan) (nl_rate newLoan)
                      (nl_tenureYears newLoan)))
  - nl_closingCosts newLoan.

Definition compareRefinancing (currentLoan : CurrentLoan) (newLoan : NewLoan) : Refi.t :=
  let current :=
    calculateMonthlyPayment (cl_balance currentLoan) (cl_rate currentLoan)
      (cl_remainingYears currentLoan) in
  let newCalc :=
    calculateMonthlyPayment (cl_balance currentLoan) (nl_rate newLoan)
      (nl_tenureYears newLoan) in
  let monthlyDifference := monthlyPayment current - monthlyPayment newCalc in
  let totalInterestDifference := totalInterest current - totalInterest newCalc in
  let breakEvenMonths :=
    if monthlyDifference > lit 0
    then Math_ceil (nl_closingCosts newLoan / monthlyDifference)
    else PInf in
  let netSavings := totalInterestDifference - nl_closingCosts newLoan in
  {| Refi.cur :=
       {| Refi.c_monthlyPayment := monthlyPayment current;
          Refi.c_totalInterest := totalInterest current;
          Refi.c_totalPayment := totalPayment current;
          Refi.remainingMonths := (cl_remainingYears currentLoan * 12)%Z |};
     Refi.refi :=
       {| Refi.r_monthlyPayment := monthlyPayment newCalc;
          Refi.r_totalInterest := totalInterest newCalc;
          Refi.r_totalPayment := totalPayment newCalc + nl_closingCosts newLoan;
          Refi.newTenureMonths := (nl_tenureYears newLoan * 12)%Z;
          Refi.closingCosts := nl_closingCosts newLoan |};
     Refi.cmp :=
       {| Refi.monthlyDifference := roundToTwoDecimals monthlyDifference;
          Refi.totalInterestSaved := roundToTwoDecimals totalInterestDifference;
          Refi.breakEvenMonths :=
            if breakEvenMonths === PInf then NA else Num breakEvenMonths;
          Refi.breakEvenYears :=
            if breakEvenMonths === PInf then NA
            else Num (roundToTwoDecimals (breakEvenMonths / lit 12));
          Refi.netSavings := roundToTwoDecimals netSavings;
          Refi.worthRefinancing :=
            (netSavings > lit 0)
            && (breakEvenMonths < ofZ (nl_tenureYears newLoan * 12)) |} |}.

(** ** calculateStampDutyMOT *)

(** One entry of the per-tier breakdown.  The source stores two display
    strings, [range] (built from [tier.min] and [tier.max] with the
    locale's number format) and [rate] ([tier.rate * 100] followed by a
    percent sign); the entry keeps the numbers these strings are printed
    from. *)
Record BreakdownEntry : Type :=
  { range : num * num;
    rate : num;
    taxableAmount : num;
    duty : num }.

(** The variables the loop over the tiers updates. *)
Record TierState : Type :=
  { ts_stampDuty : num;
    ts_remainingValue : num;
    ts_breakdown : list BreakdownEntry }.

Definition tierBody (tier : Tier) (st : TierState) : TierState :=
  let tierMin := tier_min tier in
  let tierMax := tier_max tier in
  let tierRange := tierMax - tierMin in
  let taxableAmount := Math_min (ts_remainingValue st) tierRange in
  let tierDuty := taxableAmount * tier_rate tier in
  {| ts_stampDuty := ts_stampDuty st + tierDuty;
     ts_remainingValue := ts_remainingValue st - taxableAmount;
     ts_breakdown :=
       ts_breakdown st ++
       [ {| range := (tierMin, tierMax);
            rate := tier_rate tier * lit 100;
            taxableAmount := roundToTwoDecimals taxableAmount;
            duty := roundToTwoDecimals tierDuty |} ] |}.

(** [for (const tier of tiers) { if (remainingValue <= 0) break; ... }] *)
Fixpoint walkTiers (tiers : list Tier) (st : TierState) : TierState :=
  match tiers with
  | [] => st
  | tier :: rest =>
      if ts_remainingValue st <= lit 0 then st
      else walkTiers rest (tierBody tier st)
  end.

Record StampDutyResult : Type :=
  { grossStampDuty : num;
    exemption : num;
    exemptionNote : string;
    netStampDuty : num;
    breakdown : list BreakdownEntry }.

Definition noteFirstTimeBuyer : string :=
  "First-time buyer exemption (100% for property ≤ RM500,000)".
Definition noteHOC : string := "Home Ownership Campaign exemption (75%)".

Definition calculateStampDutyMOT (propertyPrice : num)
  (isFirstTimeBuyer applyHOC : bool) : StampDutyResult :=
  let st :=
    walkTiers (standard STAMP_DUTY_MOT)
      {| ts_stampDuty := lit 0;
         ts_remainingValue := propertyPrice;
         ts_breakdown := [] |} in
  let stampDuty := ts_stampDuty st in
  let '(exemption, exemptionNote) :=
    if isFirstTimeBuyer
       && (propertyPrice <= ftb_maxPrice (firstTimeBuyerExemption STAMP_DUTY_MOT))
    then (stampDuty * ftb_exemptionRate (firstTimeBuyerExemption STAMP_DUTY_MOT),
          noteFirstTimeBuyer)
    else if applyHOC
            && (propertyPrice >= hoc_minPrice (hocExemption STAMP_DUTY_MOT))
            && (propertyPrice <= hoc_maxPrice (hocExemption STAMP_DUTY_MOT))
    then (stampDuty * hoc_exemptionRate (hocExemption STAMP_DUTY_MOT), noteHOC)
    else (lit 0, EmptyString) in
  {| grossStampDuty := roundToTwoDecimals stampDuty;
     exemption := roundToTwoDecimals exemption;
     exemptionNote := exemptionNote;
     netStampDuty := roundToTwoDecimals (stampDuty - exemption);
     breakdown := ts_breakdown st |}.

(** ** calculateIslamicMM *)

Record IslamicMM : Type :=
  { mm_propertyValue : num;
    mm_customerInitialShare : num;
    mm_bankShare : num;
    mm_rentalRate : num;
    mm_monthlyPayment : num;
    mm_totalPayment : num;
    mm_totalRental : num;
    mm_tenureYears : Z;
    mm_totalMonths : Z }.

Definition calculateIslamicMM (principal customerContribution rentalRate : num)
  (tenureYears : Z) : IslamicMM :=
  let bankShare := principal - customerContribution in
  let totalMonths := (tenureYears * 12)%Z in
  let monthlyRate := rentalRate / lit 100 / lit 12 in
  let monthlyPayment :=
    bankShare *
    (monthlyRate * Math_pow (lit 1 + monthlyRate) totalMonths) /
    (Math_pow (lit 1 + monthlyRate) totalMonths - lit 1) in
  let totalPayment := monthlyPayment * ofZ totalMonths in
  let totalRental := totalPayment - bankShare in
  {| mm_propertyValue := roundToTwoDecimals principal;
     mm_customerInitialShare := roundToTwoDecimals customerContribution;
     mm_bankShare := roundToTwoDecimals bankShare;
     mm_rentalRate := rentalRate;
     mm_monthlyPayment := roundToTwoDecimals monthlyPayment;
     mm_totalPayment := roundToTwoDecimals totalPayment;
     mm_totalRental := roundToTwoDecimals totalRental;
     mm_tenureYears := tenureYears;
     mm_totalMonths := totalMonths |}.

(** ** Reference notions of the specification *)

Local Open Scope Q_scope.

(** The standard annuity payment for a principal [P], a periodic rate [r]
    and [n] periods. *)
Definition annuity (P r : Q) (n : Z) : Q :=
  P * (r * (1 + r) ^ n) / ((1 + r) ^ n - 1).

(** Rounding to the nearest multiple of 0.01, ties towards [+Infinity]:
    what [roundToTwoDecimals] computes on a finite number. *)
Definition round_half_up_2 (q : Q) : Q :=
  inject_Z (Qfloor (q * 100 + (1 # 2))) / 100.

(** Rounding to the nearest multiple of 0.01, ties away from zero. *)
Definition round_half_away_2 (q : Q) : Q :=
  if Qle_bool 0 q
  then inject_Z (Qfloor (q * 100 + (1 # 2))) / 100
  else - (inject_Z (Qfloor (- q * 100 + (1 # 2))) / 100).

(** [x] is the finite number [q]. *)
Definition is_fin (x : num) (q : Q) : Prop :=
  match x with Fin a => a == q | _ => False end.

Definition sum_num (l : list num) : num := fold_left nadd l (lit 0).

(** Sortedness of a column of finite numbers. *)
Fixpoint non_increasing (l : list num) : bool :=
  match l with
  | [] => true
  | x :: rest =>
      match rest with
      | [] => true
      | y :: _ => nle y x && non_increasing rest
      end
  end.

Local Close Scope Q_scope.

(** ** The tier walk on exact rationals

    The walk over a tier table as the specification words it: tiers in
    ascending order, taxable = min(remaining, tier width), the walk stops
    once nothing remains. *)

Local Open Scope Q_scope.

(** A tier with finite bounds, or unbounded above ([q_max = None]). *)
Record QTier : Type := mkQTier { q_min : Q; q_max : option Q; q_rate : Q }.

Definition tier_of (t : QTier) : Tier :=
  mkTier (fin (q_min t))
         (match q_max t with Some h => fin h | None => PInf end)
         (fin (q_rate t)).

Definition taxable (t : QTier) (remaining : Q) : Q :=
  match q_max t with
  | Some h => Qmin remaining (h - q_min t)
  | None => remaining
  end.

(** The tiers that are charged, each with its taxable amount. *)
Fixpoint levy (tiers : list QTier) (remaining : Q) : list (QTier * Q) :=
  match tiers with
  | [] => []
  | t :: rest =>
      if Qle_bool remaining 0 then []
      else (t, taxable t remaining) :: levy rest (remaining - taxable t remaining)
  end.

Definition levy_duty (e : QTier * Q) : Q := snd e * q_rate (fst e).

Definition Qsum (l : list Q) : Q := fold_right Qplus 0 l.

(** The breakdown entry the source pushes for a charged tier. *)
Definition entry_of (e : QTier * Q) : BreakdownEntry :=
  {| range := (tier_min (tier_of (fst e)), tier_max (tier_of (fst e)));
     rate := fin (q_rate (fst e) * 100);
     taxableAmount := fin (round_half_up_2 (snd e));
     duty := fin (round_half_up_2 (levy_duty e)) |}.

(** The tier table [STAMP_DUTY_MOT.standard]. *)
Definition MOT_tiers : list QTier :=
  [ mkQTier 0 (Some 100000) 0.01;
    mkQTier 100000 (Some 500000) 0.02;
    mkQTier 500000 (Some 1000000) 0.03;
    mkQTier 1000000 None 0.04 ].

(** A whole number of cents. *)
Definition is_cent (q : Q) : Prop := exists k : Z, q * 100 == inject_Z k.

(** Every tier that can be charged in full yields a whole number of cents. *)
Definition full_tiers_in_cents (tiers : list QTier) : Prop :=
  forall t h, In t tiers -> q_max t = Some h -> is_cent ((h - q_min t) * q_rate t).

Local Close Scope Q_scope.

(** The state in which the loop of [calculateStampDutyMOT] ends. *)
Definition MOT_state (propertyPrice : num) : TierState :=
  walkTiers (standard STAMP_DUTY_MOT)
    {| ts_stampDuty := lit 0; ts_remainingValue := propertyPrice;
       ts_breakdown := [] |}.

(** A finite number that is not negative. *)
Definition nonneg_fin (x : num) : Prop := exists b : Q, x = fin b /\ (0 <= b)%Q.

(** The balance column of the schedule built so far. *)
Definition balance_column (st : ScheduleState) : list num :=
  map Row.balance (sch_schedule st).

(** The balance after [k] payments of [m] at growth factor [w] when nothing
    clamps it at 0. *)
Fixpoint unclamped (P w m : Q) (k : nat) : Q :=
  match k with
  | O => P
  | S k' => (w * unclamped P w m k' - m)%Q
  end.

(** * The remaining functions of the calculation engine *)

(** ** More constants of [js/data.js] *)

Record StampDutyLoan : Type :=
  { sdl_rate : num; sdl_maxExemption : num; sdl_firstTimeBuyerMaxPrice : num }.

Definition STAMP_DUTY_LOAN : StampDutyLoan :=
  {| sdl_rate := lit 0.005;
     sdl_maxExemption := lit 500000;
     sdl_firstTimeBuyerMaxPrice := lit 500000 |}.

(** [additionalFees] is an object literal; [Object.values] lists its values
    in the order of the keys below. *)
Record LegalFeesTable : Type :=
  { lf_scale : list Tier; lf_additionalFees : list (string * num) }.

Definition LEGAL_FEES : LegalFeesTable :=
  {| lf_scale :=
       [ mkTier (lit 0) (lit 500000) (lit 0.01);
         mkTier (lit 500000) (lit 1000000) (lit 0.008);
         mkTier (lit 1000000) (lit 3000000) (lit 0.007);
         mkTier (lit 3000000) (lit 5000000) (lit 0.006);
         mkTier (lit 5000000) (lit 7500000) (lit 0.005);
         mkTier (lit 7500000) PInf (lit 0.005) ];
     lf_additionalFees :=
       [ ("disbursement"%string, lit 1500);
         ("searchFees"%string, lit 300);
         ("registrationFees"%string, lit 200);
         ("stampingFees"%string, lit 100) ] |}.

(** ** calculateAffordability *)

Module Afford.
Record figures : Type :=
  { grossIncome : num;
    maxTotalDebt : num;
    existingCommitments : num;
    availableForMortgage : num }.
(** The object returned when nothing is left for a mortgage. *)
Record refused : Type :=
  { r_maxLoanAmount : num;
    r_maxMonthlyPayment : num;
    r_currentDSR : num;
    message : string }.
(** The object returned otherwise. *)
Record granted : Type :=
  { maxLoanAmount : num;
    maxMonthlyPayment : num;
    currentDSR : num;
    maxDSR : num;
    availableDSR : num;
    estimatedPropertyPrice : num;
    breakdown : figures }.
(** [canAfford] is [false] in the first object and [true] in the second. *)
Inductive t : Type :=
| Refused (r : refused)
| Granted (g : granted).
Definition canAfford (x : t) : bool :=
  match x with Refused _ => false | Granted _ => true end.
End Afford.

Definition calculateAffordability
  (monthlyIncome existingCommitments dsrLimit annualRate : num) (tenureYears : Z)
  : Afford.t :=
  let maxTotalDebt := monthlyIncome * dsrLimit in
  let availableForMortgage := maxTotalDebt - existingCommitments in
  if availableForMortgage <= lit 0 then
    Afford.Refused
      {| Afford.r_maxLoanAmount := lit 0;
         Afford.r_maxMonthlyPayment := lit 0;
         Afford.r_currentDSR :=
           roundToTwoDecimals ((existingCommitments / monthlyIncome) * lit 100);
         Afford.message := "Existing commitments exceed DSR limit" |}
  else
    let monthlyRate := annualRate / lit 100 / lit 12 in
    let totalMonths := (tenureYears * 12)%Z in
    let maxLoan :=
      availableForMortgage *
      (Math_pow (lit 1 + monthlyRate) totalMonths - lit 1) /
      (monthlyRate * Math_pow (lit 1 + monthlyRate) totalMonths) in
    Afford.Granted
      {| Afford.maxLoanAmount := roundToTwoDecimals maxLoan;
         Afford.maxMonthlyPayment := roundToTwoDecimals availableForMortgage;
         Afford.currentDSR :=
           roundToTwoDecimals ((existingCommitments / monthlyIncome) * lit 100);
         Afford.maxDSR := roundToTwoDecimals (dsrLimit * lit 100);
         Afford.availableDSR :=
           roundToTwoDecimals
             (((maxTotalDebt - existingCommitments) / monthlyIncome) * lit 100);
         Afford.estimatedPropertyPrice := roundToTwoDecimals (maxLoan / lit 0.9);
         Afford.breakdown :=
           {| Afford.grossIncome := monthlyIncome;
              Afford.maxTotalDebt := roundToTwoDecimals maxTotalDebt;
              Afford.existingCommitments := existingCommitments;
              Afford.availableForMortgage := roundToTwoDecimals availableForMortgage |} |}.

(** ** calculateStampDutyLoan *)

Module LoanDuty.
Record t : Type :=
  { grossStampDuty : num;
    exemption : num;
    exemptionNote : string;
    netStampDuty : num }.
End LoanDuty.

Definition noteLoanFirstTimeBuyer : string :=
  "First-time buyer exemption (100% on first RM500,000)".

Definition calculateStampDutyLoan (loanAmount : num) (isFirstTimeBuyer : bool)
  (propertyPrice : num) : LoanDuty.t :=
  let grossStampDuty := loanAmount * sdl_rate STAMP_DUTY_LOAN in
  let '(exemption, exemptionNote) :=
    if isFirstTimeBuyer
       && (propertyPrice <= sdl_firstTimeBuyerMaxPrice STAMP_DUTY_LOAN)
    then
      let exemptableAmount := Math_min loanAmount (sdl_maxExemption STAMP_DUTY_LOAN) in
      (exemptableAmount * sdl_rate STAMP_DUTY_LOAN, noteLoanFirstTimeBuyer)
    else (lit 0, EmptyString) in
  {| LoanDuty.grossStampDuty := roundToTwoDecimals grossStampDuty;
     LoanDuty.exemption := roundToTwoDecimals exemption;
     LoanDuty.exemptionNote := exemptionNote;
     LoanDuty.netStampDuty := roundToTwoDecimals (grossStampDuty - exemption) |}.

(** ** calculateLegalFees *)

(** One entry of the fee breakdown; [range] and [rate] are kept as numbers,
    as in [BreakdownEntry]. *)
Record LegalEntry : Type :=
  { le_range : num * num;
    le_rate : num;
    amount : num;
    fee : num }.

Module Legal.
Record t : Type :=
  { baseFees : num;
    additionalFees : list (string * num);
    totalAdditionalFees : num;
    totalFees : num;
    breakdown : list LegalEntry }.
End Legal.

(** The variables the loop over the scale updates. *)
Record FeeState : Type :=
  { fs_fees : num;
    fs_remainingValue : num;
    fs_breakdown : list LegalEntry }.

Definition feeBody (tier : Tier) (st : FeeState) : FeeState :=
  let tierMin := tier_min tier in
  let tierMax := tier_max tier in
  let tierRange := tierMax - tierMin in
  let feeableAmount := Math_min (fs_remainingValue st) tierRange in
  let tierFee := feeableAmount * tier_rate tier in
  {| fs_fees := fs_fees st + tierFee;
     fs_remainingValue := fs_remainingValue st - feeableAmount;
     fs_breakdown :=
       fs_breakdown st ++
       [ {| le_range := (tierMin, tierMax);
            le_rate := tier_rate tier * lit 100;
            amount := roundToTwoDecimals feeableAmount;
            fee := roundToTwoDecimals tierFee |} ] |}.

Fixpoint walkScale (tiers : list Tier) (st : FeeState) : FeeState :=
  match tiers with
  | [] => st
  | tier :: rest =>
      if fs_remainingValue st <= lit 0 then st
      else walkScale rest (feeBody tier st)
  end.

Definition calculateLegalFees (amount : num) : Legal.t :=
  let st :=
    walkScale (lf_scale LEGAL_FEES)
      {| fs_fees := lit 0; fs_remainingValue := amount; fs_breakdown := [] |} in
  let fees := fs_fees st in
  let additionalFees :=
    fold_left nadd (map snd (lf_additionalFees LEGAL_FEES)) (lit 0) in
  {| Legal.baseFees := roundToTwoDecimals fees;
     Legal.additionalFees := lf_additionalFees LEGAL_FEES;
     Legal.totalAdditionalFees := additionalFees;
     Legal.totalFees := roundToTwoDecimals (fees + additionalFees);
     Legal.breakdown := fs_breakdown st |}.

(** ** calculateTotalUpfrontCosts *)

Module Upfront.
Record summary : Type :=
  { s_downPayment : num;
    s_stampDuty : num;
    s_legalFees : num;
    s_valuationFee : num;
    s_total : num }.
Record t : Type :=
  { propertyPrice : num;
    loanAmount : num;
    downPayment : num;
    downPaymentPercent : num;
    stampDutyMOT : StampDutyResult;
    stampDutyLoan : LoanDuty.t;
    legalFeesSPA : Legal.t;
    legalFeesLoan : Legal.t;
    valuationFee : num;
    totalCosts : num;
    summ : summary }.
End Upfront.

Definition calculateTotalUpfrontCosts (propertyPrice loanAmount : num)
  (isFirstTimeBuyer applyHOC : bool) : Upfront.t :=
  let downPayment := propertyPrice - loanAmount in
  let stampDutyMOT := calculateStampDutyMOT propertyPrice isFirstTimeBuyer applyHOC in
  let stampDutyLoan := calculateStampDutyLoan loanAmount isFirstTimeBuyer propertyPrice in
  let legalFeesSPA := calculateLegalFees propertyPrice in
  let legalFeesLoan := calculateLegalFees loanAmount in
  let valuationFee := Math_max (lit 500) (propertyPrice * lit 0.0025) in
  let totalCosts :=
    downPayment +
    netStampDuty stampDutyMOT +
    LoanDuty.netStampDuty stampDutyLoan +
    Legal.totalFees legalFeesSPA +
    Legal.totalFees legalFeesLoan +
    valuationFee in
  {| Upfront.propertyPrice := propertyPrice;
     Upfront.loanAmount := loanAmount;
     Upfront.downPayment := roundToTwoDecimals downPayment;
     Upfront.downPaymentPercent :=
       roundToTwoDecimals ((downPayment / propertyPrice) * lit 100);
     Upfront.stampDutyMOT := stampDutyMOT;
     Upfront.stampDutyLoan := stampDutyLoan;
     Upfront.legalFeesSPA := legalFeesSPA;
     Upfront.legalFeesLoan := legalFeesLoan;
     Upfront.valuationFee := roundToTwoDecimals valuationFee;
     Upfront.totalCosts := roundToTwoDecimals totalCosts;
     Upfront.summ :=
       {| Upfront.s_downPayment := roundToTwoDecimals downPayment;
          Upfront.s_stampDuty :=
            roundToTwoDecimals
              (netStampDuty stampDutyMOT + LoanDuty.netStampDuty stampDutyLoan);
          Upfront.s_legalFees :=
            roundToTwoDecimals
              (Legal.totalFees legalFeesSPA + Legal.totalFees legalFeesLoan);
          Upfront.s_valuationFee := roundToTwoDecimals valuationFee;
          Upfront.s_total := roundToTwoDecimals totalCosts |} |}.

(** ** calculateIslamicMurabahah *)

Module Murabahah.
Record t : Type :=
  { type : string;
    principal : num;
    profitRate : num;
    totalProfit : num;
    sellingPrice : num;
    monthlyPayment : num;
    tenureYears : Z;
    totalMonths : Z;
    note : string }.
End Murabahah.

Definition calculateIslamicMurabahah (principal profitRate : num) (tenureYears : Z)
  : Murabahah.t :=
  let totalProfit := principal * (profitRate / lit 100) * ofZ tenureYears in
  let sellingPrice := principal + totalProfit in
  let monthlyPayment := sellingPrice / ofZ (tenureYears * 12) in
  {| Murabahah.type := "Murabahah (BBA)";
     Murabahah.principal := roundToTwoDecimals principal;
     Murabahah.profitRate := profitRate;
     Murabahah.totalProfit := roundToTwoDecimals totalProfit;
     Murabahah.sellingPrice := roundToTwoDecimals sellingPrice;
     Murabahah.monthlyPayment := roundToTwoDecimals monthlyPayment;
     Murabahah.tenureYears := tenureYears;
     Murabahah.totalMonths := (tenureYears * 12)%Z;
     Murabahah.note :=
       "Selling price is fixed at contract signing. No rebate for early settlement typically." |}.

(** * The yearly view of the schedule ([js/app.js]) *)

(** ** aggregateYearly *)

Module Yearly.
Record t : Type :=
  { year : num;
    payment : num;
    principal : num;
    interest : num;
    balance : num;
    cumulativeInterest : num }.
End Yearly.

(** [yearly[row.year]] converts the number to a property name: two numbers
    name the same property when they are the same number ([NaN] included). *)
Definition same_key (x y : num) : bool :=
  match x, y with
  | Fin a, Fin b => Qeq_bool a b
  | PInf, PInf | NInf, NInf | NaN, NaN => true
  | _, _ => false
  end.

(** The object [yearly]: its properties in the order of their creation. *)
Definition YearlyObject : Type := list (num * Yearly.t).

Fixpoint getProperty (o : YearlyObject) (key : num) : option Yearly.t :=
  match o with
  | [] => None
  | (k, v) :: rest => if same_key k key then Some v else getProperty rest key
  end.

Fixpoint updateProperty (o : YearlyObject) (key : num) (f : Yearly.t -> Yearly.t)
  : YearlyObject :=
  match o with
  | [] => []
  | (k, v) :: rest =>
      if same_key k key then (k, f v) :: rest
      else (k, v) :: updateProperty rest key f
  end.

(** The five assignments to [yearly[row.year]]. *)
Definition addRow (row : Row.t) (y : Yearly.t) : Yearly.t :=
  {| Yearly.year := Yearly.year y;
     Yearly.payment := Yearly.payment y + Row.payment row;
     Yearly.principal := Yearly.principal y + Row.principal row;
     Yearly.interest := Yearly.interest y + Row.interest row;
     Yearly.balance := Row.balance row;
     Yearly.cumulativeInterest := Row.cumulativeInterest row |}.

(** The callback of [monthlyData.forEach]. *)
Definition yearlyBody (yearly : YearlyObject) (row : Row.t) : YearlyObject :=
  let yearly :=
    match getProperty yearly (Row.year row) with
    | Some _ => yearly
    | None =>
        yearly ++
        [ (Row.year row,
           {| Yearly.year := Row.year row;
              Yearly.payment := lit 0;
              Yearly.principal := lit 0;
              Yearly.interest := lit 0;
              Yearly.balance := lit 0;
              Yearly.cumulativeInterest := lit 0 |}) ]
    end in
  updateProperty yearly (Row.year row) (addRow row).

(** A property name that is an array index: a whole number from 0 to
    2^32 - 2. *)
Definition arrayIndex (key : num) : option Z :=
  match key with
  | Fin q =>
      let q := Qred q in
      if (Z.pos (Qden q) =? 1)%Z && (0 <=? Qnum q)%Z && (Qnum q <=? 4294967294)%Z
      then Some (Qnum q)
      else None
  | _ => None
  end.

Fixpoint insertIndexed (e : Z * Yearly.t) (l : list (Z * Yearly.t))
  : list (Z * Yearly.t) :=
  match l with
  | [] => [e]
  | e' :: rest =>
      if (fst e <=? fst e')%Z then e :: l else e' :: insertIndexed e rest
  end.

(** [Object.values]: the properties named by an array index come first, in
    ascending order of the index, the others follow in the order of their
    creation. *)
Definition Object_values (o : YearlyObject) : list Yearly.t :=
  let indexed :=
    flat_map (fun kv => match arrayIndex (fst kv) with
                        | Some i => [(i, snd kv)]
                        | None => []
                        end) o in
  let named :=
    filter (fun kv => match arrayIndex (fst kv) with
                      | Some _ => false
                      | None => true
                      end) o in
  map snd (fold_right insertIndexed [] indexed) ++ map snd named.

Definition aggregateYearly (monthlyData : list Row.t) : list Yearly.t :=
  Object_values (fold_left yearlyBody monthlyData []).

(** ** Reference notions for the yearly view *)

(** The years of the rows, each once, in the order of their first row. *)
Definition years_seen (rows : list Row.t) : list num :=
  fold_left
    (fun seen row =>
       if existsb (fun k => same_key k (Row.year row)) seen then seen
       else seen ++ [Row.year row])
    rows [].

(** The rows of the year [k], in their order. *)
Definition rows_of_year (k : num) (rows : list Row.t) : list Row.t :=
  filter (fun row => same_key k (Row.year row)) rows.

(** The entry that sums up the rows [rs] of the year [k]: the payment,
    principal and interest columns are added up from 0 in the order of the
    rows, the balance and the cumulative interest are those of the last
    row. *)
Definition year_entry (k : num) (rs : list Row.t) : Yearly.t :=
  {| Yearly.year := k;
     Yearly.payment := sum_num (map Row.payment rs);
     Yearly.principal := sum_num (map Row.principal rs);
     Yearly.interest := sum_num (map Row.interest rs);
     Yearly.balance := last (map Row.balance rs) (lit 0);
     Yearly.cumulativeInterest := last (map Row.cumulativeInterest rs) (lit 0) |}.


(** ** Reference notions for the fee scale *)

Local Open Scope Q_scope.

(** The tier table [LEGAL_FEES.scale]. *)
Definition LEGAL_tiers : list QTier :=
  [ mkQTier 0 (Some 500000) 0.01;
    mkQTier 500000 (Some 1000000) 0.008;
    mkQTier 1000000 (Some 3000000) 0.007;
    mkQTier 3000000 (Some 5000000) 0.006;
    mkQTier 5000000 (Some 7500000) 0.005;
    mkQTier 7500000 None 0.005 ].

(** The loop of [calculateLegalFees] is the loop of [calculateStampDutyMOT]
    with other names: an entry and a state of the one, read as an entry and
    a state of the other. *)
Definition legal_of (e : BreakdownEntry) : LegalEntry :=
  {| le_range := range e;
     le_rate := rate e;
     amount := taxableAmount e;
     fee := duty e |}.

Definition fee_state_of (st : TierState) : FeeState :=
  {| fs_fees := ts_stampDuty st;
     fs_remainingValue := ts_remainingValue st;
     fs_breakdown := map legal_of (ts_breakdown st) |}.

(** The levy on [remaining], before rounding. *)
Definition levy_total (tiers : list QTier) (remaining : Q) : Q :=
  Qsum (map levy_duty (levy tiers remaining)).

(** Rates are not negative and no tier has a negative width. *)
Definition tiers_well_formed (tiers : list QTier) : Prop :=
  forall t, In t tiers ->
    0 <= q_rate t /\ (forall h, q_max t = Some h -> q_min t <= h).

(** Every tier that can be filled has a width in whole cents. *)
Definition tier_widths_in_cents (tiers : list QTier) : Prop :=
  forall t h, In t tiers -> q_max t = Some h -> is_cent (h - q_min t).

(** The last tier of the table is unbounded. *)
Fixpoint ends_unbounded (tiers : list QTier) : Prop :=
  match tiers with
  | [] => False
  | t :: rest =>
      match rest with
      | [] => q_max t = None
      | _ :: _ => ends_unbounded rest
      end
  end.

Local Close Scope Q_scope.


(** ** Reference notions for the simulation and the schedule *)

Local Open Scope Q_scope.

(** What has been paid beyond interest, plus what is still owed, covers the
    principal [P]; without a lump sum ([L <= 0]) it is exactly the
    principal. *)
Definition paid_for (P L : Q) (s : SimState) : Prop :=
  exists b ti tp : Q,
    sim_balance s = Fin b /\
    sim_totalInterestPaid s = Fin ti /\
    sim_totalPaid s = Fin tp /\
    0 <= b /\
    P + ti <= tp + b /\
    (L <= 0 -> tp + b == P + ti).

Local Close Scope Q_scope.


Local Open Scope Q_scope.

(** A schedule row whose interest and principal parts are the two parts of
    the payment [m], and whose cumulative columns are the parts of all the
    payments up to its month, each rounded to the cent on its own. *)
Definition row_adds_up (m : Q) (row : Row.t) : Prop :=
  exists i p ci cp : Q,
    Row.interest row = fin (round_half_up_2 i) /\
    Row.principal row = fin (round_half_up_2 p) /\
    Row.payment row = fin (round_half_up_2 m) /\
    i + p == m /\
    Row.cumulativeInterest row = fin (round_half_up_2 ci) /\
    Row.cumulativePrincipal row = fin (round_half_up_2 cp) /\
    ci + cp == inject_Z (Row.month row) * m.

Local Close Scope Q_scope.


(** No two of the keys name the same property. *)
Fixpoint distinct_keys (ks : list num) : Prop :=
  match ks with
  | [] => True
  | k :: rest => Forall (fun k' => same_key k k' = false) rest /\ distinct_keys rest
  end.

(** A list of integers in strictly ascending order. *)
Fixpoint ascending (l : list Z) : Prop :=
  match l with
  | [] => True
  | x :: rest => Forall (fun y => (x < y)%Z) rest /\ ascending rest
  end.

(** * Properties *)

(** ** Arithmetic of finite numbers *)

Section FiniteArithmetic.

Local Open Scope Q_scope.

Lemma fin_eq (a b : Q) : a == b -> fin a = fin b.
Proof. intros H. unfold fin. f_equal. now apply Qred_complete. Qed.

Lemma fin_inj (a b : Q) : fin a = fin b -> a == b.
Proof. unfold fin. intros H. injection H as H. now apply Qred_eq_iff. Qed.

Lemma nadd_Fin (a b : Q) : (Fin a + Fin b)%num = fin (a + b).
Proof. reflexivity. Qed.

Lemma nsub_Fin (a b : Q) : (Fin a - Fin b)%num = fin (a - b).
Proof. reflexivity. Qed.

Lemma nmul_Fin (a b : Q) : (Fin a * Fin b)%num = fin (a * b).
Proof. reflexivity. Qed.

Lemma ndiv_Fin (a b : Q) : ~ b == 0 -> (Fin a / Fin b)%num = fin (a / b).
Proof.
  intros Hb. unfold ndiv.
  destruct (Qeq_bool b 0) eqn:E; [| reflexivity].
  apply Qeq_bool_iff in E. contradiction.
Qed.

Lemma ndiv_Fin_zero (a b : Q) :
  b == 0 -> (Fin a / Fin b)%num = inf_of_sign (a ?= 0).
Proof.
  intros Hb. unfold ndiv.
  destruct (Qeq_bool b 0) eqn:E; [reflexivity |].
  apply Qeq_bool_neq in E. contradiction.
Qed.

Lemma nlt_Fin (a b : Q) : (Fin a < Fin b)%num = true <-> a < b.
Proof.
  unfold nlt, ncompare. rewrite Qlt_alt.
  destruct (a ?= b); split; congruence.
Qed.

Lemma nle_Fin (a b : Q) : (Fin a <= Fin b)%num = true <-> a <= b.
Proof.
  unfold nle, ncompare. rewrite Qle_alt.
  destruct (a ?= b); split; congruence.
Qed.

Lemma ngt_Fin (a b : Q) : (Fin a > Fin b)%num = true <-> b < a.
Proof. apply nlt_Fin. Qed.

Lemma nge_Fin (a b : Q) : (Fin a >= Fin b)%num = true <-> b <= a.
Proof. apply nle_Fin. Qed.

Lemma nseq_Fin (a b : Q) : (Fin a === Fin b)%num = true <-> a == b.
Proof.
  unfold nseq, ncompare. rewrite Qeq_alt.
  destruct (a ?= b); split; congruence.
Qed.

Lemma nseq_Fin_false (a b : Q) : (Fin a === Fin b)%num = false <-> ~ a == b.
Proof. rewrite <- not_true_iff_false, nseq_Fin. reflexivity. Qed.

Lemma Math_pow_Fin (a : Q) (n : Z) :
  (0 < n)%Z -> Math_pow (Fin a) n = fin (a ^ n).
Proof.
  intros Hn. unfold Math_pow.
  destruct (Z.eqb_spec n 0); [lia |].
  destruct (Z.ltb_spec n 0); [lia |]. reflexivity.
Qed.

End FiniteArithmetic.

(** ** The payment summary on finite inputs *)

Local Open Scope Q_scope.

(** Unfold the operations applied to finite numbers. *)
Ltac nred :=
  repeat (progress (unfold lit, ofZ, fin; cbn [nadd nsub nmul Math_round Math_ceil])).

(** Drop the reductions to lowest terms, up to [==]. *)
Ltac qnorm := repeat rewrite Qred_correct.

Lemma Qred_lit_nz (q : Q) : ~ q == 0 -> ~ Qred q == 0.
Proof. now rewrite Qred_correct. Qed.

#[export] Instance round_half_up_2_comp : Proper (Qeq ==> Qeq) round_half_up_2.
Proof. intros x y H. unfold round_half_up_2. now rewrite H. Qed.

Lemma inject_Z_pos (z : Z) : (0 < z)%Z -> 0 < inject_Z z.
Proof. intros H. unfold Qlt. simpl. lia. Qed.

Lemma roundToTwoDecimals_Fin (a : Q) :
  roundToTwoDecimals (Fin a) = fin (round_half_up_2 a).
Proof.
  unfold roundToTwoDecimals. nred.
  rewrite ndiv_Fin by (apply Qred_lit_nz; discriminate).
  apply fin_eq. unfold round_half_up_2. qnorm. reflexivity.
Qed.

Lemma monthlyRate_Fin (a : Q) :
  (Fin a / lit 100 / lit 12)%num = fin (a / 100 / 12).
Proof.
  nred. rewrite ndiv_Fin by (apply Qred_lit_nz; discriminate).
  nred. rewrite ndiv_Fin by (apply Qred_lit_nz; discriminate).
  apply fin_eq. qnorm. reflexivity.
Qed.

(** The record [calculateMonthlyPayment] returns in its zero-rate branch. *)
Lemma calculateMonthlyPayment_zero_rate (P a : Q) (t : Z) : a == 0 -> (0 < t)%Z ->
  calculateMonthlyPayment (Fin P) (Fin a) t =
  {| monthlyPayment := fin (P / inject_Z (t * 12));
     totalPayment := Fin P; totalInterest := lit 0; effectiveRate := lit 0 |}.
Proof.
  intros Ha Ht. unfold calculateMonthlyPayment.
  rewrite monthlyRate_Fin.
  assert (E : (fin (a / 100 / 12) === lit 0)%num = true).
  { unfold lit, fin. apply nseq_Fin. qnorm. rewrite Ha. reflexivity. }
  rewrite E. f_equal.
  nred. rewrite ndiv_Fin.
  - apply fin_eq. qnorm. reflexivity.
  - apply Qred_lit_nz. intros H.
    assert (0 < inject_Z (t * 12)) by (apply inject_Z_pos; lia). lra.
Qed.

Lemma Qpower_gt_1 (x : Q) (n : Z) : 1 < x -> (0 < n)%Z -> 1 < x ^ n.
Proof.
  intros Hx Hn.
  assert (H : x ^ 1 <= x ^ n) by (apply Qpower_le_compat_l; [lia | lra]).
  rewrite Qpower_1_r in H.
  apply Qlt_le_trans with x; assumption.
Qed.

Lemma Qminus_nz (x y : Q) : y < x -> ~ x - y == 0.
Proof. intros H. lra. Qed.

Lemma monthlyRate_pos (a : Q) : 0 < a -> 0 < a / 100 / 12.
Proof.
  intros H.
  assert (E : a / 100 / 12 == a * (1 # 1200)) by (field; discriminate).
  rewrite E. lra.
Qed.

(** The record [calculateMonthlyPayment] returns in its annuity branch,
    written with exact rationals. *)
Lemma calculateMonthlyPayment_annuity (P a : Q) (t : Z) :
  ~ P == 0 -> 0 < a -> (0 < t)%Z ->
  let r := a / 100 / 12 in
  let n := inject_Z (t * 12) in
  let m := annuity P r (t * 12) in
  calculateMonthlyPayment (Fin P) (Fin a) t =
  {| monthlyPayment := fin (round_half_up_2 m);
     totalPayment := fin (round_half_up_2 (m * n));
     totalInterest := fin (round_half_up_2 (m * n - P));
     effectiveRate := fin (round_half_up_2 ((m * n - P) / P * 100)) |}.
Proof.
  intros HP Ha Ht r n m. unfold calculateMonthlyPayment.
  rewrite monthlyRate_Fin. fold r.
  assert (Hr : 0 < r) by (apply monthlyRate_pos; exact Ha).
  assert (E : (fin r === lit 0)%num = false).
  { unfold lit, fin. apply nseq_Fin_false. qnorm. lra. }
  rewrite E. clear E.
  assert (Hpow : 1 < (1 + r) ^ (t * 12)) by (apply Qpower_gt_1; [lra | lia]).
  assert (Em : (Fin P * (fin r * Math_pow (lit 1 + fin r) (t * 12)) /
                (Math_pow (lit 1 + fin r) (t * 12) - lit 1))%num = fin m).
  { nred. rewrite Math_pow_Fin by lia. nred.
    rewrite ndiv_Fin.
    - apply fin_eq. unfold m, annuity. qnorm. reflexivity.
    - qnorm. apply Qminus_nz, Hpow. }
  rewrite Em. unfold fin at 1 2 3 4.
  rewrite !roundToTwoDecimals_Fin.
  f_equal.
  - apply fin_eq. now qnorm.
  - nred. rewrite roundToTwoDecimals_Fin. apply fin_eq.
    fold n. now qnorm.
  - nred. rewrite roundToTwoDecimals_Fin. apply fin_eq.
    fold n. now qnorm.
  - nred. rewrite ndiv_Fin by exact HP. nred.
    rewrite roundToTwoDecimals_Fin. apply fin_eq.
    fold n. now qnorm.
Qed.

(** ** Zero-rate loans *)

(** C6: for every principal >= 0 and tenure > 0, [calculateMonthlyPayment]
    at annual rate 0 returns monthlyPayment = principal / (tenure * 12)
    exactly (not rounded), totalPayment = principal, totalInterest = 0 and
    effectiveRate = 0. *)
Theorem zero_rate_payment_exact (P a : Q) (t : Z) :
  0 <= P -> a == 0 -> (0 < t)%Z ->
  let res := calculateMonthlyPayment (Fin P) (Fin a) t in
  monthlyPayment res = fin (P / inject_Z (t * 12)) /\
  totalPayment res = Fin P /\
  totalInterest res = fin 0 /\
  effectiveRate res = fin 0.
Proof.
  intros _ Ha Ht res. unfold res.
  rewrite calculateMonthlyPayment_zero_rate by assumption.
  repeat split.
Qed.

Lemma zero_rate_payment_exact_witness :
  let res := calculateMonthlyPayment (Fin 100000) (Fin 0) 30 in
  monthlyPayment res = fin (100000 / inject_Z (30 * 12)) /\
  totalPayment res = Fin 100000 /\
  totalInterest res = fin 0 /\
  effectiveRate res = fin 0.
Proof.
  apply (@zero_rate_payment_exact 100000 0 30).
  - discriminate.
  - reflexivity.
  - reflexivity.
Defined.

(** ** The diminishing-partnership variant at rate 0 *)

Lemma Qcompare_Eq (x y : Q) : x == y -> (x ?= y) = Eq.
Proof. intros H. now apply Qeq_alt. Qed.

Lemma islamicMM_payment_NaN (B : Q) (n : Z) :
  (fin B *
   (fin (0 / 100 / 12) * Math_pow (lit 1 + fin (0 / 100 / 12)) n) /
   (Math_pow (lit 1 + fin (0 / 100 / 12)) n - lit 1))%num = NaN.
Proof.
  assert (Hpow : Math_pow (lit 1 + fin (0 / 100 / 12)) n = fin 1).
  { nred. unfold Math_pow.
    destruct (Z.eqb_spec n 0) as [-> | Hn]; [reflexivity |].
    change (Qeq_bool (Qred (Qred 1 + Qred (0 / 100 / 12))) 0) with false.
    rewrite andb_false_r. apply fin_eq.
    change (Qred (Qred 1 + Qred (0 / 100 / 12))) with 1.
    apply Qpower_1. }
  rewrite Hpow. change (fin (0 / 100 / 12)) with (fin 0). nred.
  rewrite ndiv_Fin_zero by (qnorm; reflexivity).
  rewrite Qcompare_Eq; [reflexivity |].
  qnorm. ring.
Qed.

(** C10: [calculateIslamicMM] has no zero-rate guard.  At rentalRate = 0
    (any tenure > 0, bank share > 0) the denominator (1+0)^n - 1 of the
    annuity formula is 0 and the numerator is 0 as well, so monthlyPayment,
    totalPayment and totalRental are all NaN, whereas
    [calculateMonthlyPayment] on the same bank share and rate returns the
    finite payment bankShare / (tenure * 12). *)
Theorem islamicMM_zero_rate_is_NaN (pv cc : Q) (t : Z) :
  0 < pv - cc -> (0 < t)%Z ->
  let res := calculateIslamicMM (Fin pv) (Fin cc) (Fin 0) t in
  mm_monthlyPayment res = NaN /\
  mm_totalPayment res = NaN /\
  mm_totalRental res = NaN /\
  monthlyPayment (calculateMonthlyPayment (Fin pv - Fin cc) (Fin 0) t)
  = fin ((pv - cc) / inject_Z (t * 12)).
Proof.
  intros _ Ht res. unfold res, calculateIslamicMM.
  rewrite monthlyRate_Fin, nsub_Fin.
  cbn [mm_monthlyPayment mm_totalPayment mm_totalRental].
  rewrite islamicMM_payment_NaN. repeat split.
  unfold fin at 1.
  rewrite calculateMonthlyPayment_zero_rate by (reflexivity || assumption).
  cbn [monthlyPayment]. apply fin_eq. now qnorm.
Qed.

Lemma islamicMM_zero_rate_is_NaN_witness :
  let res := calculateIslamicMM (Fin 600000) (Fin 100000) (Fin 0) 30 in
  mm_monthlyPayment res = NaN /\
  mm_totalPayment res = NaN /\
  mm_totalRental res = NaN /\
  monthlyPayment (calculateMonthlyPayment (Fin 600000 - Fin 100000) (Fin 0) 30)
  = fin ((600000 - 100000) / inject_Z (30 * 12)).
Proof.
  apply (@islamicMM_zero_rate_is_NaN 600000 100000 30); reflexivity.
Defined.

(** ** Refinancing: break-even and worthiness *)

Lemma ncompare_antisym (x y : num) :
  ncompare y x = option_map CompOpp (ncompare x y).
Proof.
  destruct x, y; try reflexivity.
  cbn. now rewrite Qcompare_antisym.
Qed.

Lemma nle_true_ngt_false (x y : num) :
  (x <= y)%num = true -> (x > y)%num = false.
Proof.
  unfold nle, ngt, nlt. rewrite (ncompare_antisym x y).
  destruct (ncompare x y) as [[| |] |]; cbn; congruence.
Qed.

Lemma ngt_zero_div_finite (cc : Q) (md : num) :
  (md > lit 0)%num = true -> exists z, (Fin cc / md)%num = Fin z.
Proof.
  intros H. destruct md as [m | | |]; try discriminate.
  - unfold lit, fin in H. apply ngt_Fin in H. rewrite Qred_correct in H.
    rewrite ndiv_Fin by lra. now eexists.
  - now eexists.
Qed.



(** ** The tier walk *)

Lemma MOT_tiers_standard : standard STAMP_DUTY_MOT = map tier_of MOT_tiers.
Proof. reflexivity. Qed.

Lemma Math_min_Fin (a b : Q) : Math_min (Fin a) (Fin b) = Fin (Qmin a b).
Proof.
  unfold Math_min, ncompare, Qmin, GenericMinMax.gmin.
  now destruct (a ?= b).
Qed.

Lemma Qle_bool_comp (x y : Q) : x == y -> Qle_bool x 0 = Qle_bool y 0.
Proof.
  intros H. destruct (Qle_bool y 0) eqn:E.
  - apply Qle_bool_iff. apply Qle_bool_iff in E. now rewrite H.
  - apply not_true_iff_false. apply not_true_iff_false in E.
    intros C. apply E. apply Qle_bool_iff. apply Qle_bool_iff in C. now rewrite <- H.
Qed.

Lemma Qmin_comp (x y w : Q) : x == y -> Qmin x w == Qmin y w.
Proof. intros H. now rewrite H. Qed.

Lemma taxable_comp (t : QTier) (x y : Q) : x == y -> taxable t x == taxable t y.
Proof.
  intros H. unfold taxable. destruct (q_max t); [now apply Qmin_comp | exact H].
Qed.

Lemma entry_of_comp (t : QTier) (x y : Q) :
  x == y -> entry_of (t, x) = entry_of (t, y).
Proof.
  intros H. unfold entry_of, levy_duty. cbn [fst snd]. f_equal.
  - apply fin_eq. now rewrite H.
  - apply fin_eq. now rewrite H.
Qed.

(** The entries depend on the remaining amount only up to [==]. *)
Lemma levy_entries_comp (tiers : list QTier) :
  forall x y, x == y -> map entry_of (levy tiers x) = map entry_of (levy tiers y).
Proof.
  induction tiers as [| t rest IH]; intros x y H; [reflexivity |].
  cbn [levy]. rewrite (Qle_bool_comp x y H).
  destruct (Qle_bool y 0); [reflexivity |].
  cbn [map]. f_equal.
  - apply entry_of_comp, taxable_comp, H.
  - apply IH. now rewrite (taxable_comp t x y H), H.
Qed.

Lemma levy_duties_comp (tiers : list QTier) :
  forall x y, x == y ->
  Qsum (map levy_duty (levy tiers x)) == Qsum (map levy_duty (levy tiers y)).
Proof.
  induction tiers as [| t rest IH]; intros x y H; [reflexivity |].
  cbn [levy]. rewrite (Qle_bool_comp x y H).
  destruct (Qle_bool y 0); [reflexivity |].
  cbn [map Qsum fold_right]. unfold levy_duty at 1 3. cbn [fst snd].
  fold (Qsum (map levy_duty (levy rest (x - taxable t x)))).
  fold (Qsum (map levy_duty (levy rest (y - taxable t y)))).
  rewrite (IH (x - taxable t x) (y - taxable t y)).
  - now rewrite (taxable_comp t x y H).
  - now rewrite (taxable_comp t x y H), H.
Qed.

(** One iteration of the loop body on finite values. *)
Lemma tierBody_Fin (t : QTier) (sd rem : Q) (bd : list BreakdownEntry) :
  tierBody (tier_of t)
    {| ts_stampDuty := Fin sd; ts_remainingValue := Fin rem; ts_breakdown := bd |} =
  {| ts_stampDuty := fin (sd + taxable t rem * q_rate t);
     ts_remainingValue := fin (rem - taxable t rem);
     ts_breakdown := bd ++ [entry_of (t, taxable t rem)] |}.
Proof.
  destruct t as [lo [h |] rt];
    unfold tierBody, tier_of, taxable, entry_of, levy_duty;
    cbn [tier_min tier_max tier_rate ts_stampDuty ts_remainingValue ts_breakdown
         fst snd q_min q_max q_rate].
  - nred. rewrite Math_min_Fin. nred. rewrite !roundToTwoDecimals_Fin.
    f_equal; [apply fin_eq; now qnorm | apply fin_eq; now qnorm |].
    do 2 f_equal. f_equal; apply fin_eq; now qnorm.
  - nred. change (Math_min (Fin rem) PInf) with (Fin rem). nred.
    rewrite !roundToTwoDecimals_Fin.
    f_equal; [apply fin_eq; now qnorm |].
    do 2 f_equal. f_equal; apply fin_eq; now qnorm.
Qed.

(** The loop of the source computes the walk of the specification. *)
Lemma walkTiers_levy (tiers : list QTier) :
  forall (sd rem : Q) (bd : list BreakdownEntry),
  let st := walkTiers (map tier_of tiers)
              {| ts_stampDuty := Fin sd; ts_remainingValue := Fin rem;
                 ts_breakdown := bd |} in
  is_fin (ts_stampDuty st) (sd + Qsum (map levy_duty (levy tiers rem))) /\
  ts_breakdown st = bd ++ map entry_of (levy tiers rem).
Proof.
  induction tiers as [| t rest IH]; intros sd rem bd.
  - cbn. split; [lra | now rewrite app_nil_r].
  - cbn [map walkTiers levy ts_remainingValue].
    destruct (Qle_bool rem 0) eqn:E.
    + assert (E' : (Fin rem <= lit 0)%num = true).
      { unfold lit, fin. apply nle_Fin. qnorm. now apply Qle_bool_iff. }
      rewrite E'. cbn. split; [lra | now rewrite app_nil_r].
    + assert (E' : (Fin rem <= lit 0)%num = false).
      { unfold lit, fin. apply not_true_iff_false. rewrite nle_Fin. qnorm.
        intros C. apply Qle_bool_iff in C. congruence. }
      rewrite E'. rewrite tierBody_Fin. unfold fin. cbv zeta.
      destruct (IH (Qred (sd + taxable t rem * q_rate t))
                   (Qred (rem - taxable t rem))
                   (bd ++ [entry_of (t, taxable t rem)])) as [H1 H2].
      split.
      * destruct (ts_stampDuty _); try contradiction. cbn [is_fin] in *.
        rewrite H1. cbn [map Qsum fold_right]. unfold levy_duty at 2. cbn [fst snd].
        fold (Qsum (map levy_duty (levy rest (rem - taxable t rem)))).
        rewrite (levy_duties_comp rest (Qred (rem - taxable t rem)) (rem - taxable t rem))
          by apply Qred_correct.
        qnorm. ring.
      * rewrite H2, <- app_assoc. cbn [map app]. do 2 f_equal.
        apply levy_entries_comp, Qred_correct.
Qed.

(** *** Rounding and whole cents *)

Lemma Qfloor_unique (y : Q) (m : Z) :
  inject_Z m <= y -> y < inject_Z (m + 1) -> Qfloor y = m.
Proof.
  intros H1 H2.
  pose proof (Qfloor_le y) as F1. pose proof (Qlt_floor y) as F2.
  assert (A : (Qfloor y < m + 1)%Z).
  { rewrite Zlt_Qlt. apply Qle_lt_trans with y; assumption. }
  assert (B : (m < Qfloor y + 1)%Z).
  { rewrite Zlt_Qlt. apply Qle_lt_trans with y; assumption. }
  lia.
Qed.

Lemma Qfloor_add_Z (k : Z) (x : Q) : Qfloor (inject_Z k + x) = (k + Qfloor x)%Z.
Proof.
  pose proof (Qfloor_le x) as F1. pose proof (Qlt_floor x) as F2.
  apply Qfloor_unique.
  - rewrite inject_Z_plus. lra.
  - rewrite <- Z.add_assoc, inject_Z_plus. lra.
Qed.

#[export] Instance is_cent_comp : Proper (Qeq ==> iff) is_cent.
Proof.
  intros x y H. unfold is_cent. split; intros [k Hk]; exists k.
  - now rewrite <- H.
  - now rewrite H.
Qed.

Lemma is_cent_0 : is_cent 0.
Proof. exists 0%Z. reflexivity. Qed.

Lemma is_cent_plus (a b : Q) : is_cent a -> is_cent b -> is_cent (a + b).
Proof.
  intros [k Hk] [l Hl]. exists (k + l)%Z.
  rewrite inject_Z_plus, <- Hk, <- Hl. ring.
Qed.

Lemma round_half_up_2_add_cent (a x : Q) :
  is_cent a -> round_half_up_2 (a + x) == a + round_half_up_2 x.
Proof.
  intros [k Hk]. unfold round_half_up_2.
  assert (E : (a + x) * 100 + (1 # 2) == inject_Z k + (x * 100 + (1 # 2))).
  { rewrite <- Hk. ring. }
  rewrite E, Qfloor_add_Z, inject_Z_plus.
  assert (Ha : a == inject_Z k / 100) by (rewrite <- Hk; field).
  rewrite Ha. field.
Qed.

Lemma round_half_up_2_cent (a : Q) : is_cent a -> round_half_up_2 a == a.
Proof.
  intros H.
  assert (E : a == a + 0) by ring.
  rewrite E at 1. rewrite (round_half_up_2_add_cent a 0 H).
  change (round_half_up_2 0) with (0 / 100). field.
Qed.

(** *** The rounded breakdown adds up to the rounded total *)

Lemma levy_nothing_left (tiers : list QTier) (rem : Q) :
  Qle_bool rem 0 = true -> levy tiers rem = [].
Proof. intros H. destruct tiers; [reflexivity |]. cbn. now rewrite H. Qed.

Lemma taxable_full (t : QTier) (rem : Q) :
  Qle_bool (rem - taxable t rem) 0 = false ->
  exists h, q_max t = Some h /\ taxable t rem == h - q_min t.
Proof.
  intros H.
  assert (L : 0 < rem - taxable t rem).
  { apply Qnot_le_lt. intros C. apply Qle_bool_iff in C. congruence. }
  unfold taxable in *. destruct (q_max t) as [h |].
  - exists h. split; [reflexivity |].
    destruct (Q.min_spec rem (h - q_min t)) as [[_ E] | [_ E]].
    + rewrite E in L. lra.
    + exact E.
  - lra.
Qed.

Lemma levy_rounded_sum (tiers : list QTier) :
  full_tiers_in_cents tiers ->
  forall rem acc, is_cent acc ->
  acc + Qsum (map (fun e => round_half_up_2 (levy_duty e)) (levy tiers rem))
  == round_half_up_2 (acc + Qsum (map levy_duty (levy tiers rem))).
Proof.
  induction tiers as [| t rest IH]; intros Hc rem acc Hacc.
  - cbn. rewrite Qplus_0_r. symmetry. now apply round_half_up_2_cent.
  - cbn [levy]. destruct (Qle_bool rem 0).
    + cbn. rewrite Qplus_0_r. symmetry. now apply round_half_up_2_cent.
    + cbn [map Qsum fold_right].
      fold (Qsum (map levy_duty (levy rest (rem - taxable t rem)))).
      fold (Qsum (map (fun e => round_half_up_2 (levy_duty e))
                      (levy rest (rem - taxable t rem)))).
      unfold levy_duty at 1 3. cbn [fst snd].
      destruct (Qle_bool (rem - taxable t rem) 0) eqn:E.
      * rewrite (levy_nothing_left rest _ E). cbn. rewrite !Qplus_0_r.
        symmetry. now apply round_half_up_2_add_cent.
      * destruct (taxable_full t rem E) as (h & Hh & Ht).
        assert (Hd : is_cent (taxable t rem * q_rate t)).
        { rewrite Ht. apply (Hc t h); [now left | exact Hh]. }
        rewrite (round_half_up_2_cent _ Hd).
        rewrite !Qplus_assoc. apply IH.
        -- intros t' h' Hin. apply Hc. now right.
        -- now apply is_cent_plus.
Qed.

Lemma MOT_tiers_in_cents : full_tiers_in_cents MOT_tiers.
Proof.
  intros t h Hin Hh.
  destruct Hin as [<- | [<- | [<- | [<- | []]]]]; cbn in Hh;
    try discriminate; injection Hh as <-.
  - exists 100000%Z. reflexivity.
  - exists 800000%Z. reflexivity.
  - exists 1500000%Z. reflexivity.
Qed.

Lemma sum_num_fin_acc (qs : list Q) :
  forall acc, fold_left nadd (map fin qs) (fin acc) = fin (acc + Qsum qs).
Proof.
  induction qs as [| q rest IH]; intros acc.
  - cbn. apply fin_eq. ring.
  - cbn [map fold_left Qsum fold_right]. fold (Qsum rest).
    unfold fin at 2 3. rewrite nadd_Fin, IH.
    apply fin_eq. qnorm. ring.
Qed.

Lemma sum_num_fin (qs : list Q) : sum_num (map fin qs) = fin (Qsum qs).
Proof.
  unfold sum_num, lit. rewrite sum_num_fin_acc. apply fin_eq. ring.
Qed.

(** The state of the walk of [calculateStampDutyMOT] on a finite price. *)
Lemma MOT_walk (p : Q) :
  let st := walkTiers (standard STAMP_DUTY_MOT)
              {| ts_stampDuty := lit 0; ts_remainingValue := Fin p;
                 ts_breakdown := [] |} in
  is_fin (ts_stampDuty st) (Qsum (map levy_duty (levy MOT_tiers p))) /\
  ts_breakdown st = map entry_of (levy MOT_tiers p).
Proof.
  rewrite MOT_tiers_standard. unfold lit, fin.
  destruct (walkTiers_levy MOT_tiers (Qred 0) p []) as [H1 H2].
  cbv zeta. split; [| exact H2].
  destruct (ts_stampDuty _); try contradiction. cbn [is_fin] in *.
  rewrite H1. qnorm. ring.
Qed.

(** *** The result record of [calculateStampDutyMOT] *)

Lemma calculateStampDutyMOT_gross (price : num) (ftb hoc : bool) :
  grossStampDuty (calculateStampDutyMOT price ftb hoc)
  = roundToTwoDecimals (ts_stampDuty (MOT_state price)).
Proof.
  unfold calculateStampDutyMOT. fold (MOT_state price).
  now destruct (if ftb && _ then _ else _).
Qed.

Lemma calculateStampDutyMOT_breakdown (price : num) (ftb hoc : bool) :
  breakdown (calculateStampDutyMOT price ftb hoc) = ts_breakdown (MOT_state price).
Proof.
  unfold calculateStampDutyMOT. fold (MOT_state price).
  now destruct (if ftb && _ then _ else _).
Qed.

Lemma map_duty_entry_of (l : list (QTier * Q)) :
  map duty (map entry_of l) = map fin (map (fun e => round_half_up_2 (levy_duty e)) l).
Proof. rewrite !map_map. reflexivity. Qed.


(** ** Stamp duty exemptions *)


(** ** The annuity payment and its totals *)

Lemma round_half_up_2_error (x : Q) :
  - (1 # 200) < round_half_up_2 x - x /\ round_half_up_2 x - x <= 1 # 200.
Proof.
  unfold round_half_up_2.
  pose proof (Qfloor_le (x * 100 + (1 # 2))) as F1.
  pose proof (Qlt_floor (x * 100 + (1 # 2))) as F2.
  rewrite inject_Z_plus in F2.
  set (F := inject_Z (Qfloor (x * 100 + (1 # 2)))) in *.
  assert (E : F / 100 == F * (1 # 100)) by (field; discriminate).
  rewrite E. change (inject_Z 1) with 1 in F2. split; lra.
Qed.




(** ** Rounding of the outputs *)

Lemma round_half_away_2_nonneg (x : Q) :
  0 <= x -> round_half_away_2 x = round_half_up_2 x.
Proof.
  intros H. unfold round_half_away_2.
  apply Qle_bool_iff in H. now rewrite H.
Qed.

Lemma Qpower_ge_1 (x : Q) (n : Z) : 1 <= x -> (0 <= n)%Z -> 1 <= x ^ n.
Proof.
  intros Hx Hn.
  assert (H : x ^ 0 <= x ^ n) by (apply Qpower_le_compat_l; assumption).
  exact H.
Qed.

Lemma Qpower_succ (x : Q) (k : nat) :
  ~ x == 0 -> x ^ Z.of_nat (S k) == x ^ Z.of_nat k * x.
Proof.
  intros Hx. rewrite Nat2Z.inj_succ. unfold Z.succ.
  rewrite Qpower_plus by exact Hx. now rewrite Qpower_1_r.
Qed.

(** (1+r)^k - 1 <= k r (1+r)^k: the payments of an annuity add up to at
    least the principal. *)
Lemma compound_growth_bound (r : Q) (k : nat) :
  0 <= r ->
  (1 + r) ^ Z.of_nat k - 1 <= inject_Z (Z.of_nat k) * r * (1 + r) ^ Z.of_nat k.
Proof.
  intros Hr. induction k as [| k IH].
  - change ((1 + r) ^ Z.of_nat 0) with 1.
    change (inject_Z (Z.of_nat 0)) with 0. lra.
  - assert (Hw : 1 <= (1 + r) ^ Z.of_nat k) by (apply Qpower_ge_1; [lra | lia]).
    rewrite Qpower_succ by lra.
    rewrite Nat2Z.inj_succ. unfold Z.succ. rewrite inject_Z_plus.
    change (inject_Z 1) with 1.
    set (w := (1 + r) ^ Z.of_nat k) in *.
    set (c := inject_Z (Z.of_nat k)) in *.
    assert (Hc : 0 <= c).
    { unfold c. change 0 with (inject_Z 0). rewrite <- Zle_Qle. lia. }
    assert (H1 : 0 <= r * w) by (apply Qmult_le_0_compat; lra).
    assert (H2 : 0 <= r * (r * w)) by (apply Qmult_le_0_compat; lra).
    assert (H3 : 0 <= c * (r * (r * w))) by (apply Qmult_le_0_compat; lra).
    assert (H4 : (w - 1) * (1 + r) <= (c * r * w) * (1 + r)).
    { apply Qmult_le_compat_r; lra. }
    lra.
Qed.

Lemma annuity_nonneg_facts (P a : Q) (t : Z) :
  0 < P -> 0 < a -> (0 < t)%Z ->
  let r := a / 100 / 12 in
  let n := inject_Z (t * 12) in
  let A := annuity P r (t * 12) in
  0 < A /\ P <= A * n.
Proof.
  intros HP Ha Ht r n A.
  assert (Hr : 0 < r) by (apply monthlyRate_pos; exact Ha).
  assert (Hw : 1 < (1 + r) ^ (t * 12)) by (apply Qpower_gt_1; [lra | lia]).
  assert (Hn : 0 < n) by (apply inject_Z_pos; lia).
  pose proof (compound_growth_bound r (Z.to_nat (t * 12)) (Qlt_le_weak _ _ Hr)) as B.
  rewrite Z2Nat.id in B by lia. fold n in B.
  unfold A, annuity. set (w := (1 + r) ^ (t * 12)) in *.
  assert (HD : 0 < w - 1) by lra.
  assert (Hrw : 0 < r * w) by (apply Qmult_lt_0_compat; lra).
  split.
  - apply Qlt_shift_div_l; [exact HD |]. rewrite Qmult_0_l.
    apply Qmult_lt_0_compat; assumption.
  - assert (E : P * (r * w) / (w - 1) * n == (P * (n * r * w)) / (w - 1)).
    { field. lra. }
    rewrite E. apply Qle_shift_div_l; [exact HD |].
    apply Qmult_le_l; [exact HP | exact B].
Qed.




(** ** The extra-payment simulation: the final month *)




(** ** The amortization schedule *)

Lemma fold_left_invariant {A B : Type} (f : A -> B -> A) (I : A -> Prop) :
  (forall a b, I a -> I (f a b)) ->
  forall l a, I a -> I (fold_left f l a).
Proof.
  intros Hstep l. induction l as [| x l IH]; intros a Ha; [exact Ha |].
  cbn. apply IH, Hstep, Ha.
Qed.

Lemma schedule_months (r m : num) (l : list Z) :
  forall st,
  map Row.month (sch_schedule (fold_left (scheduleBody r m) l st))
  = map Row.month (sch_schedule st) ++ l.
Proof.
  induction l as [| k l IH]; intros st.
  - cbn. now rewrite app_nil_r.
  - cbn [fold_left]. rewrite IH. unfold scheduleBody.
    cbn [sch_schedule]. rewrite map_app, <- app_assoc. reflexivity.
Qed.

Lemma Math_max_Fin (a b : Q) : Math_max (Fin a) (Fin b) = Fin (Qmax a b).
Proof.
  unfold Math_max, ncompare, Qmax, GenericMinMax.gmax.
  now destruct (a ?= b).
Qed.

Lemma round_half_up_2_nonneg (x : Q) : 0 <= x -> 0 <= round_half_up_2 x.
Proof.
  intros H. unfold round_half_up_2.
  apply Qle_shift_div_l; [reflexivity |]. rewrite Qmult_0_l.
  change 0 with (inject_Z 0). rewrite <- Zle_Qle.
  change 0%Z with (Qfloor (inject_Z 0)). apply Qfloor_resp_le.
  change (inject_Z 0) with 0. lra.
Qed.

Lemma round_half_up_2_mono (x y : Q) :
  x <= y -> round_half_up_2 x <= round_half_up_2 y.
Proof.
  intros H. unfold round_half_up_2.
  apply Qmult_le_compat_r; [| discriminate].
  rewrite <- Zle_Qle. apply Qfloor_resp_le. lra.
Qed.

(** *** Sortedness of a column *)

Lemma nle_refl_Fin (a : Q) : (Fin a <= Fin a)%num = true.
Proof. apply nle_Fin. apply Qle_refl. Qed.

Lemma nle_trans (x y z : num) :
  (x <= y)%num = true -> (y <= z)%num = true -> (x <= z)%num = true.
Proof.
  destruct x as [a | | |], y as [b | | |], z as [c | | |];
    intros H1 H2; try reflexivity; try discriminate.
  apply nle_Fin in H1. apply nle_Fin in H2. apply nle_Fin.
  now apply Qle_trans with b.
Qed.

Lemma non_increasing_lower_last (L : list num) (x : num) (v : Q) :
  non_increasing (L ++ [x]) = true ->
  (Fin v <= x)%num = true ->
  non_increasing ((L ++ [Fin v]) ++ [Fin v]) = true.
Proof.
  intros HL Hv. induction L as [| z L IH].
  - cbn [app non_increasing]. now rewrite nle_refl_Fin.
  - destruct L as [| z' L].
    + cbn [app non_increasing] in HL |- *. rewrite andb_true_r in HL.
      rewrite (nle_trans _ _ _ Hv HL), nle_refl_Fin. reflexivity.
    + cbn [app non_increasing] in HL |- *.
      apply andb_true_iff in HL. destruct HL as [H1 H2].
      rewrite H1. cbn [andb]. apply IH. exact H2.
Qed.

Lemma non_increasing_init (L : list num) (x : num) :
  non_increasing (L ++ [x]) = true -> non_increasing L = true.
Proof.
  induction L as [| z L IH]; [reflexivity |].
  destruct L as [| z' L]; [reflexivity |].
  cbn [app non_increasing]. intros H.
  apply andb_true_iff in H. destruct H as [H1 H2].
  rewrite H1. cbn [andb]. apply IH. exact H2.
Qed.

Lemma last_snoc (L : list num) (x d : num) : last (L ++ [x]) d = x.
Proof. apply last_last. Qed.

(** *** Invariants of the schedule loop

    The loop runs with a finite monthly rate [r >= 0] and a finite payment
    [m]; [P] is the principal. *)

Section ScheduleLoop.

Variables P r m : Q.
Hypothesis rate_nonneg : 0 <= r.

(** One iteration of the schedule loop on a finite balance. *)
Lemma scheduleBody_balance (b : Q) (st : ScheduleState) (k : Z) :
  sch_balance st = Fin b ->
  exists b' : Q,
    sch_balance (scheduleBody (Fin r) (Fin m) st k) = Fin b' /\
    b' == Qmax 0 (b - (m - b * r)) /\
    balance_column (scheduleBody (Fin r) (Fin m) st k)
    = balance_column st ++ [fin (round_half_up_2 b')].
Proof.
  intros Hb. unfold scheduleBody, balance_column. rewrite Hb.
  cbn [sch_balance sch_schedule]. nred. rewrite Math_max_Fin.
  eexists. split; [reflexivity |]. split.
  - now qnorm.
  - rewrite map_app. cbn [map Row.balance]. now rewrite roundToTwoDecimals_Fin.
Qed.

(** The balance stays finite and never becomes negative. *)
Lemma schedule_balance_nonneg (l : list Z) (st : ScheduleState) :
  (exists b, sch_balance st = Fin b /\ 0 <= b) ->
  Forall nonneg_fin (balance_column st) ->
  Forall nonneg_fin (balance_column (fold_left (scheduleBody (Fin r) (Fin m)) l st)).
Proof.
  intros Hb Hcol.
  apply (fold_left_invariant (scheduleBody (Fin r) (Fin m))
           (fun st => (exists b, sch_balance st = Fin b /\ 0 <= b) /\
                      Forall nonneg_fin (balance_column st))); [| now split].
  clear Hb Hcol st. intros st k [(b & Hb & Hpos) Hcol].
  destruct (scheduleBody_balance b st k Hb) as (b' & Hb' & Eb' & Hc).
  assert (Hpos' : 0 <= b') by (rewrite Eb'; apply Q.le_max_l).
  split; [now exists b' |].
  rewrite Hc. apply Forall_app. split; [exact Hcol |].
  constructor; [| constructor].
  exists (round_half_up_2 b'). split; [reflexivity |].
  now apply round_half_up_2_nonneg.
Qed.

Section PaymentCoversInterest.

Hypothesis payment_covers_interest : P * r <= m.

(** When the payment covers the interest on the whole principal, the
    balance never grows. *)
Lemma schedule_balance_non_increasing (l : list Z) (st : ScheduleState) :
  (exists b, sch_balance st = Fin b /\ 0 <= b /\ b <= P /\
             non_increasing (balance_column st ++ [fin (round_half_up_2 b)]) = true) ->
  non_increasing (balance_column (fold_left (scheduleBody (Fin r) (Fin m)) l st)) = true.
Proof.
  intros Hst.
  enough (H : exists b,
            sch_balance (fold_left (scheduleBody (Fin r) (Fin m)) l st) = Fin b /\
            0 <= b /\ b <= P /\
            non_increasing
              (balance_column (fold_left (scheduleBody (Fin r) (Fin m)) l st)
               ++ [fin (round_half_up_2 b)]) = true).
  { destruct H as (b & _ & _ & _ & H). now apply non_increasing_init in H. }
  apply (fold_left_invariant (scheduleBody (Fin r) (Fin m))
           (fun st => exists b, sch_balance st = Fin b /\ 0 <= b /\ b <= P /\
              non_increasing (balance_column st ++ [fin (round_half_up_2 b)]) = true));
    [| exact Hst].
  clear st Hst. intros st k (b & Hb & Hpos & HbP & Hsorted).
  destruct (scheduleBody_balance b st k Hb) as (b' & Hb' & Eb' & Hc).
  assert (Hbr : b * r <= P * r) by (apply Qmult_le_compat_r; assumption).
  pose proof payment_covers_interest as Hm.
  assert (Hle : b' <= b).
  { rewrite Eb'. apply Q.max_lub; lra. }
  assert (Hpos' : 0 <= b') by (rewrite Eb'; apply Q.le_max_l).
  exists b'. split; [exact Hb' |]. split; [exact Hpos' |]. split; [lra |].
  rewrite Hc. unfold fin.
  apply non_increasing_lower_last with (x := fin (round_half_up_2 b)); [exact Hsorted |].
  unfold fin. apply nle_Fin. rewrite !Qred_correct.
  now apply round_half_up_2_mono.
Qed.

End PaymentCoversInterest.

Section FinalBalance.

Hypothesis payment_nonneg : 0 <= m.

(** The balance of the source is bounded by the unclamped balance. *)
Lemma schedule_final_balance :
  forall (l : list Z) (st : ScheduleState) (k : nat) (b : Q),
  sch_balance st = Fin b -> 0 <= b ->
  b <= Qmax 0 (unclamped P (1 + r) m k) ->
  l <> [] ->
  exists b' : Q,
    last (balance_column (fold_left (scheduleBody (Fin r) (Fin m)) l st)) NaN
    = fin (round_half_up_2 b') /\
    0 <= b' /\
    b' <= Qmax 0 (unclamped P (1 + r) m (k + List.length l)).
Proof.
  pose proof rate_nonneg as Hr. pose proof payment_nonneg as Hm.
  intros l. induction l as [| x l IH]; intros st k b Hb Hpos Hle Hne;
    [contradiction |].
  destruct (scheduleBody_balance b st x Hb) as (b1 & Hb1 & Eb1 & Hc).
  assert (Hpos1 : 0 <= b1) by (rewrite Eb1; apply Q.le_max_l).
  assert (Hle1 : b1 <= Qmax 0 (unclamped P (1 + r) m (S k))).
  { rewrite Eb1. cbn [unclamped].
    set (c := unclamped P (1 + r) m k) in *.
    apply Q.max_lub; [apply Q.le_max_l |].
    destruct (Qlt_le_dec c 0) as [Hc0 | Hc0].
    - rewrite Q.max_l in Hle by lra.
      assert (E : b == 0) by lra.
      apply Qle_trans with 0; [| apply Q.le_max_l].
      rewrite E. lra.
    - rewrite Q.max_r in Hle by lra.
      apply Qle_trans with ((1 + r) * c - m); [| apply Q.le_max_r].
      assert (H : (1 + r) * b <= (1 + r) * c).
      { apply Qmult_le_l; [lra | exact Hle]. }
      lra. }
  cbn [fold_left List.length]. destruct l as [| y l].
  - exists b1. cbn [fold_left List.length]. rewrite Hc, last_snoc.
    split; [reflexivity |]. split; [exact Hpos1 |].
    now rewrite Nat.add_1_r.
  - destruct (IH (scheduleBody (Fin r) (Fin m) st x) (S k) b1 Hb1 Hpos1 Hle1)
      as (b' & H1 & H2 & H3); [discriminate |].
    exists b'. split; [exact H1 |]. split; [exact H2 |].
    now rewrite Nat.add_succ_r.
Qed.

End FinalBalance.

End ScheduleLoop.

(** *** The balance without the clamp at 0 *)

Lemma unclamped_closed_form (P r m : Q) (k : nat) :
  0 <= r ->
  r * unclamped P (1 + r) m k
  == P * r * (1 + r) ^ Z.of_nat k - m * ((1 + r) ^ Z.of_nat k - 1).
Proof.
  intros Hr. induction k as [| k IH].
  - change ((1 + r) ^ Z.of_nat 0) with 1. cbn [unclamped]. ring.
  - cbn [unclamped]. rewrite Qpower_succ by lra.
    set (w := (1 + r) ^ Z.of_nat k) in *.
    assert (H : r * ((1 + r) * unclamped P (1 + r) m k - m)
                == (1 + r) * (r * unclamped P (1 + r) m k) - r * m) by ring.
    rewrite H, IH. ring.
Qed.

Lemma unclamped_zero_rate (P r m : Q) (k : nat) :
  r == 0 -> unclamped P (1 + r) m k == P - inject_Z (Z.of_nat k) * m.
Proof.
  intros Hr. induction k as [| k IH].
  - change (inject_Z (Z.of_nat 0)) with 0. cbn [unclamped]. ring.
  - cbn [unclamped]. rewrite IH, Nat2Z.inj_succ. unfold Z.succ.
    rewrite inject_Z_plus. change (inject_Z 1) with 1. rewrite Hr. ring.
Qed.

(** A payment of at least the exact annuity clears the balance in [n]
    periods. *)
Lemma unclamped_cleared (P r m : Q) (n : Z) :
  0 < P -> 0 <= r -> (0 < n)%Z ->
  (r == 0 /\ m == P / inject_Z n) \/ (0 < r /\ annuity P r n <= m) ->
  unclamped P (1 + r) m (Z.to_nat n) <= 0.
Proof.
  intros HP Hr0 Hn [[Er Hm] | [Hr Hm]].
  - rewrite (unclamped_zero_rate P r m _ Er), Z2Nat.id by lia.
    assert (Hq : 0 < inject_Z n) by (apply inject_Z_pos; lia).
    rewrite Hm.
    assert (E2 : inject_Z n * (P / inject_Z n) == P) by (field; lra).
    rewrite E2. lra.
  - assert (Hw : 1 < (1 + r) ^ n) by (apply Qpower_gt_1; [lra | lia]).
    pose proof (unclamped_closed_form P r m (Z.to_nat n) Hr0) as C.
    rewrite Z2Nat.id in C by lia.
    unfold annuity in Hm. set (w := (1 + r) ^ n) in *.
    set (c := unclamped P (1 + r) m (Z.to_nat n)) in *.
    assert (H1 : P * (r * w) / (w - 1) * (w - 1) <= m * (w - 1)).
    { apply Qmult_le_compat_r; lra. }
    assert (H2 : P * (r * w) / (w - 1) * (w - 1) == P * r * w) by (field; lra).
    rewrite H2 in H1.
    assert (H3 : r * c <= 0) by lra.
    destruct (Qlt_le_dec 0 c) as [Hc | Hc]; [| exact Hc].
    assert (0 < r * c) by (apply Qmult_lt_0_compat; assumption). lra.
Qed.

#[export] Instance annuity_comp : Proper (Qeq ==> Qeq ==> eq ==> Qeq) annuity.
Proof.
  intros P P' HP r r' Hr n n' <-. unfold annuity. now rewrite HP, Hr.
Qed.

(** The payment [calculateMonthlyPayment] returns is finite and not
    negative. *)
Lemma monthlyPayment_finite (P a : Q) (t : Z) :
  0 < P -> 0 <= a -> (0 < t)%Z ->
  exists m : Q,
    monthlyPayment (calculateMonthlyPayment (Fin P) (Fin a) t) = Fin m /\
    0 <= m /\
    ((a == 0 /\ m == P / inject_Z (t * 12)) \/
     (0 < a /\ m == round_half_up_2 (annuity P (a / 100 / 12) (t * 12)))).
Proof.
  intros HP Ha Ht.
  assert (Hn : 0 < inject_Z (t * 12)) by (apply inject_Z_pos; lia).
  destruct (Qeq_dec a 0) as [E | E].
  - rewrite calculateMonthlyPayment_zero_rate by assumption.
    cbn [monthlyPayment]. eexists. split; [reflexivity |].
    rewrite Qred_correct. split; [| left; split; [exact E | reflexivity]].
    apply Qle_shift_div_l; lra.
  - assert (Hpos : 0 < a) by lra.
    rewrite calculateMonthlyPayment_annuity by (lra || assumption).
    cbn [monthlyPayment]. eexists. split; [reflexivity |].
    rewrite Qred_correct. split; [| right; split; [exact Hpos | reflexivity]].
    apply round_half_up_2_nonneg.
    destruct (annuity_nonneg_facts P a t HP Hpos Ht) as [HA _]. lra.
Qed.


Lemma monthsUpTo_nonempty (n : Z) : (0 < n)%Z -> monthsUpTo n <> [].
Proof.
  intros Hn H. apply (f_equal (@List.length Z)) in H.
  unfold monthsUpTo in H. rewrite length_map, length_seq in H. cbn in H. lia.
Qed.



(** ** The extra-payment simulation: termination *)

Lemma simulate_stops (fuel : nat) (mp r e L Lm : num) (s : SimState) :
  (sim_balance s > lit 0)%num = false ->
  simulate fuel mp r e L Lm s = Some s.
Proof. intros H. destruct fuel; cbn [simulate]; now rewrite H. Qed.

Lemma simulate_step (fuel : nat) (mp r e L Lm : num) (s : SimState) :
  (sim_balance s > lit 0)%num = true ->
  simulate (S fuel) mp r e L Lm s =
  if (sim_balance (applyLumpSum L Lm (nextMonth s)) <= lit 0)%num
  then Some (applyLumpSum L Lm (nextMonth s))
  else simulate fuel mp r e L Lm
         (payMonth mp r e (applyLumpSum L Lm (nextMonth s))).
Proof. intros H. cbn [simulate]. now rewrite H. Qed.

Lemma ngt_lit0 (b : Q) : (Fin b > lit 0)%num = true <-> 0 < b.
Proof. unfold lit, fin. rewrite ngt_Fin. now rewrite Qred_correct. Qed.

(** *** The loop with an amortizing payment

    [P] is the principal, [m] the baseline payment, [r] the monthly rate,
    [e] the extra monthly payment and [L] the lump sum, applied in month
    [Lm]. *)

Section AmortizingPayment.

Variables P m r e L : Q.
Variable Lm : num.
Hypothesis rate_nonneg : 0 <= r.
Hypothesis lump_nonneg : 0 <= L.
Hypothesis amortizing : 0 < m + e - P * r.

(** The lump sum never raises the balance. *)
Lemma applyLumpSum_balance (b : Q) (s : SimState) :
  0 <= b -> sim_balance s = Fin b ->
  exists b1 : Q,
    sim_balance (applyLumpSum (Fin L) Lm (nextMonth s)) = Fin b1 /\
    0 <= b1 /\ b1 <= b.
Proof.
  intros Hb Hs. pose proof lump_nonneg as HL. unfold applyLumpSum.
  destruct ((ofZ (sim_month (nextMonth s)) === Lm)%num && (Fin L > lit 0)%num).
  - cbn [sim_balance nextMonth]. rewrite Hs. nred. rewrite Math_max_Fin.
    eexists. split; [reflexivity |]. split.
    + apply Q.max_le_iff. left. rewrite Qred_correct. lra.
    + apply Q.max_lub; rewrite Qred_correct; lra.
  - cbn [sim_balance nextMonth]. exists b. split; [exact Hs |]. split; lra.
Qed.

(** The two outcomes of a month's payment. *)
Lemma payMonth_balance (b : Q) (s : SimState) :
  sim_balance s = Fin b ->
  exists b' : Q,
    sim_balance (payMonth (Fin m) (Fin r) (Fin e) s) = Fin b' /\
    ((b <= m + e /\ b' == 0) \/ (m + e < b /\ b' == b - (m - b * r + e))).
Proof.
  intros Hs. unfold payMonth. rewrite Hs.
  assert (Hcond :
    (Fin b <= (Fin m - Fin b * Fin r + Fin e) + Fin b * Fin r)%num = true
    <-> b <= m + e).
  { nred. rewrite nle_Fin. qnorm. split; intros H; lra. }
  destruct (Fin b <= (Fin m - Fin b * Fin r + Fin e) + Fin b * Fin r)%num;
    cbn [sim_balance].
  - eexists. split; [reflexivity |]. left. split.
    + now apply Hcond.
    + apply Qred_correct.
  - nred. eexists. split; [reflexivity |]. right. split.
    + apply Qnot_le_lt. intros C. apply Hcond in C. discriminate.
    + now qnorm.
Qed.

(** Each month that is paid in full lowers the balance by at least
    [m + e - P r]; [k] such months are enough once the balance is at most
    [k (m + e - P r)]. *)
Lemma simulate_terminates :
  forall (k fuel : nat) (s : SimState) (b : Q),
  sim_balance s = Fin b -> b <= P ->
  b <= inject_Z (Z.of_nat k) * (m + e - P * r) ->
  (k <= fuel)%nat ->
  exists s', simulate fuel (Fin m) (Fin r) (Fin e) (Fin L) Lm s = Some s'.
Proof.
  pose proof rate_nonneg as Hr. pose proof amortizing as Hd.
  set (d := m + e - P * r) in *.
  induction k as [| k IH]; intros fuel s b Hs HbP Hk Hfuel.
  - exists s. apply simulate_stops. rewrite Hs.
    apply not_true_iff_false. rewrite ngt_lit0.
    change (inject_Z (Z.of_nat 0)) with 0 in Hk. lra.
  - destruct (sim_balance s > lit 0)%num eqn:Hpos;
      [| exists s; now apply simulate_stops].
    rewrite Hs in Hpos. apply ngt_lit0 in Hpos.
    destruct fuel as [| fuel]; [lia |].
    rewrite simulate_step by (rewrite Hs; now apply ngt_lit0).
    destruct (applyLumpSum_balance b s (Qlt_le_weak _ _ Hpos) Hs)
      as (b1 & Hs1 & Hb1 & Hb1b).
    set (s1 := applyLumpSum (Fin L) Lm (nextMonth s)) in *.
    destruct (sim_balance s1 <= lit 0)%num eqn:Hstop; [now exists s1 |].
    destruct (payMonth_balance b1 s1 Hs1) as (b2 & Hs2 & Hcase).
    assert (Hkd : 0 <= inject_Z (Z.of_nat k) * d).
    { apply Qmult_le_0_compat; [| lra].
      change 0 with (inject_Z 0). rewrite <- Zle_Qle. lia. }
    rewrite Nat2Z.inj_succ in Hk. unfold Z.succ in Hk.
    rewrite inject_Z_plus in Hk. change (inject_Z 1) with 1 in Hk.
    apply (IH fuel _ b2 Hs2); [| | lia].
    + destruct Hcase as [[_ E] | [_ E]]; rewrite E.
      * lra.
      * assert (Hbr : b1 * r <= P * r) by (apply Qmult_le_compat_r; lra).
        unfold d in Hd. lra.
    + destruct Hcase as [[_ E] | [_ E]]; rewrite E.
      * exact Hkd.
      * assert (Hbr : b1 * r <= P * r) by (apply Qmult_le_compat_r; lra).
        unfold d in *. lra.
Qed.

End AmortizingPayment.

(** *** A loan that is never repaid *)

Lemma simulate_stuck (fuel : nat) :
  forall s : SimState,
  sim_balance s = lit 20 ->
  simulate fuel (lit 1) (lit 60 / lit 100 / lit 12) (lit 0) (lit 0) (lit 1) s = None.
Proof.
  induction fuel as [| fuel IH]; intros [b k ti tp] Hs; cbn [sim_balance] in Hs;
    subst b.
  - reflexivity.
  - rewrite simulate_step by reflexivity.
    unfold applyLumpSum.
    change (lit 0 > lit 0)%num with false. rewrite andb_false_r.
    cbn [nextMonth sim_balance sim_month sim_totalInterestPaid sim_totalPaid].
    change (lit 20 <= lit 0)%num with false. cbv iota.
    apply IH. reflexivity.
Qed.




(** * Further properties of the engine *)



(** ** roundToTwoDecimals *)

Lemma round_half_up_2_is_cent (x : Q) : is_cent (round_half_up_2 x).
Proof.
  exists (Qfloor (x * 100 + (1 # 2))). unfold round_half_up_2. field.
Qed.



(** ** Edge cases of calculateMonthlyPayment *)

(** X3: with principal 0, a rate > 0 and a tenure > 0 the payment, the total
    payment and the total interest are 0 but effectiveRate is 0/0 = NaN. *)
Theorem payment_zero_principal (a : Q) (t : Z) :
  0 < a -> (0 < t)%Z ->
  let res := calculateMonthlyPayment (Fin 0) (Fin a) t in
  monthlyPayment res = fin 0 /\
  totalPayment res = fin 0 /\
  totalInterest res = fin 0 /\
  effectiveRate res = NaN.
Proof.
  intros Ha Ht res. unfold res, calculateMonthlyPayment.
  rewrite monthlyRate_Fin. set (r := a / 100 / 12).
  assert (Hr : 0 < r) by (apply monthlyRate_pos; exact Ha).
  assert (E : (fin r === lit 0)%num = false).
  { unfold lit, fin. apply nseq_Fin_false. qnorm. lra. }
  rewrite E. clear E.
  assert (Hpow : 1 < (1 + r) ^ (t * 12)) by (apply Qpower_gt_1; [lra | lia]).
  assert (Em : (Fin 0 * (fin r * Math_pow (lit 1 + fin r) (t * 12)) /
                (Math_pow (lit 1 + fin r) (t * 12) - lit 1))%num = fin 0).
  { nred. rewrite Math_pow_Fin by lia. nred.
    rewrite ndiv_Fin.
    - apply fin_eq. qnorm. field. apply Qminus_nz, Hpow.
    - qnorm. apply Qminus_nz, Hpow. }
  rewrite Em. cbn [monthlyPayment totalPayment totalInterest effectiveRate].
  assert (Et : (fin 0 * ofZ (t * 12))%num = fin 0).
  { nred. apply fin_eq. qnorm. ring. }
  rewrite Et.
  assert (Ei : (fin 0 - Fin 0)%num = fin 0) by reflexivity.
  rewrite Ei.
  repeat split.
Qed.

Lemma payment_zero_principal_witness :
  let res := calculateMonthlyPayment (Fin 0) (Fin 4) 30 in
  monthlyPayment res = fin 0 /\
  totalPayment res = fin 0 /\
  totalInterest res = fin 0 /\
  effectiveRate res = NaN.
Proof. apply (payment_zero_principal 4 30); reflexivity. Defined.

(** X4: with tenure 0 and a principal > 0 no error is raised: the monthly
    payment is Infinity at every rate >= 0, and in the annuity branch the
    total payment Infinity * 0 and the total interest are NaN. *)
Theorem payment_zero_tenure (P a : Q) :
  0 < P -> 0 <= a ->
  let res := calculateMonthlyPayment (Fin P) (Fin a) 0 in
  monthlyPayment res = PInf /\
  (0 < a -> totalPayment res = NaN /\ totalInterest res = NaN).
Proof.
  intros HP Ha res. unfold res, calculateMonthlyPayment.
  rewrite monthlyRate_Fin. set (r := a / 100 / 12).
  destruct (fin r === lit 0)%num eqn:E.
  - cbn [monthlyPayment totalPayment totalInterest].
    split.
    + change (ofZ (0 * 12)) with (Fin 0). rewrite ndiv_Fin_zero by reflexivity.
      assert (C : (P ?= 0) = Gt) by (apply Qgt_alt; exact HP).
      now rewrite C.
    + intros Hpos. exfalso. unfold lit, fin in E. apply nseq_Fin in E.
      revert E. qnorm. intros E.
      assert (0 < r) by (apply monthlyRate_pos; exact Hpos). lra.
  - assert (Hr : 0 < r).
    { unfold lit, fin in E. apply nseq_Fin_false in E. revert E. qnorm. intros E.
      destruct (Qle_lt_or_eq _ _ Ha) as [H | H].
      - apply monthlyRate_pos, H.
      - exfalso. apply E. unfold r. rewrite <- H. reflexivity. }
    change (Math_pow (lit 1 + fin r) (0 * 12)) with (fin 1).
    assert (Em : (Fin P * (fin r * fin 1) / (fin 1 - lit 1))%num = PInf).
    { nred. rewrite ndiv_Fin_zero by (qnorm; reflexivity).
      assert (C : (Qred (P * Qred (Qred r * Qred 1)) ?= 0) = Gt).
      { apply Qgt_alt. qnorm. rewrite Qmult_1_r. apply Qmult_lt_0_compat; assumption. }
      now rewrite C. }
    rewrite Em. cbn [monthlyPayment totalPayment totalInterest].
    split; [reflexivity |]. intros _. split; reflexivity.
Qed.

Lemma payment_zero_tenure_witness :
  let res := calculateMonthlyPayment (Fin 1000) (Fin 3) 0 in
  monthlyPayment res = PInf /\
  (0 < 3 -> totalPayment res = NaN /\ totalInterest res = NaN).
Proof. apply (payment_zero_tenure 1000 3); [reflexivity | discriminate]. Defined.

(** ** The diminishing-partnership variant and the annuity engine *)

(** X5: whenever the monthly rate is not 0, [calculateIslamicMM] returns the
    payment, the total payment and (as totalRental) the total interest that
    [calculateMonthlyPayment] returns for the bank's share
    principal - customerContribution at the same rate and tenure. *)
Theorem islamicMM_is_annuity (principal customerContribution rentalRate : num) (t : Z) :
  (rentalRate / lit 100 / lit 12 === lit 0)%num = false ->
  let mm := calculateIslamicMM principal customerContribution rentalRate t in
  let conv := calculateMonthlyPayment (principal - customerContribution) rentalRate t in
  mm_monthlyPayment mm = monthlyPayment conv /\
  mm_totalPayment mm = totalPayment conv /\
  mm_totalRental mm = totalInterest conv /\
  mm_bankShare mm = roundToTwoDecimals (principal - customerContribution)%num.
Proof.
  intros H mm conv. unfold mm, conv, calculateIslamicMM, calculateMonthlyPayment.
  rewrite H. repeat split.
Qed.

Lemma islamicMM_is_annuity_witness :
  let mm := calculateIslamicMM (lit 600000) (lit 100000) (lit 4) 1 in
  let conv := calculateMonthlyPayment (lit 600000 - lit 100000) (lit 4) 1 in
  mm_monthlyPayment mm = monthlyPayment conv /\
  mm_totalPayment mm = totalPayment conv /\
  mm_totalRental mm = totalInterest conv /\
  mm_bankShare mm = roundToTwoDecimals (lit 600000 - lit 100000)%num.
Proof.
  apply (islamicMM_is_annuity (lit 600000) (lit 100000) (lit 4) 1). reflexivity.
Defined.

(** ** calculateIslamicMurabahah *)

(** The record [calculateIslamicMurabahah] returns on finite inputs with a
    tenure other than 0. *)
Lemma calculateIslamicMurabahah_Fin (P a : Q) (t : Z) :
  t <> 0%Z ->
  let profit := P * (a / 100) * inject_Z t in
  let res := calculateIslamicMurabahah (Fin P) (Fin a) t in
  Murabahah.principal res = fin (round_half_up_2 P) /\
  Murabahah.totalProfit res = fin (round_half_up_2 profit) /\
  Murabahah.sellingPrice res = fin (round_half_up_2 (P + profit)) /\
  Murabahah.monthlyPayment res
  = fin (round_half_up_2 ((P + profit) / inject_Z (t * 12))).
Proof.
  intros Ht profit res. unfold res, calculateIslamicMurabahah.
  cbn [Murabahah.principal Murabahah.totalProfit Murabahah.sellingPrice
       Murabahah.monthlyPayment].
  assert (E1 : (Fin P * (Fin a / lit 100) * ofZ t)%num = fin profit).
  { nred. rewrite ndiv_Fin by (apply Qred_lit_nz; discriminate). nred.
    apply fin_eq. unfold profit. now qnorm. }
  rewrite E1.
  assert (E2 : (Fin P + fin profit)%num = fin (P + profit)).
  { nred. apply fin_eq. now qnorm. }
  rewrite E2.
  assert (E3 : (fin (P + profit) / ofZ (t * 12))%num
               = fin ((P + profit) / inject_Z (t * 12))).
  { nred. rewrite ndiv_Fin.
    - apply fin_eq. now qnorm.
    - qnorm. intros C.
      assert (H : (t * 12 = 0)%Z) by (apply inject_Z_injective; exact C).
      lia. }
  rewrite E3. unfold fin at 1 3 5.
  rewrite !roundToTwoDecimals_Fin.
  repeat split; apply fin_eq; now qnorm.
Qed.



(** X7: at profit rate 0 [calculateIslamicMurabahah] stays finite (there is
    no division by the rate): the profit is 0, the selling price is the
    principal, and the monthly payment is the zero-rate payment of
    [calculateMonthlyPayment] rounded to the cent. *)
Theorem murabahah_zero_rate (P : Q) (t : Z) :
  (0 < t)%Z ->
  let res := calculateIslamicMurabahah (Fin P) (Fin 0) t in
  Murabahah.totalProfit res = fin 0 /\
  Murabahah.sellingPrice res = Murabahah.principal res /\
  Murabahah.monthlyPayment res
  = roundToTwoDecimals (monthlyPayment (calculateMonthlyPayment (Fin P) (Fin 0) t)).
Proof.
  intros Ht res.
  destruct (calculateIslamicMurabahah_Fin P 0 t ltac:(lia)) as (E0 & E1 & E2 & E3).
  fold res in E0, E1, E2, E3.
  assert (Ep : P * (0 / 100) * inject_Z t == 0) by (unfold Qdiv; ring).
  split; [| split].
  - rewrite E1. apply fin_eq. rewrite Ep. reflexivity.
  - rewrite E2, E0. apply fin_eq. rewrite Ep, Qplus_0_r. reflexivity.
  - rewrite E3, calculateMonthlyPayment_zero_rate by (reflexivity || assumption).
    cbn [monthlyPayment]. unfold fin at 2. rewrite roundToTwoDecimals_Fin.
    apply fin_eq. rewrite Ep, Qplus_0_r, Qred_correct. reflexivity.
Qed.

Lemma murabahah_zero_rate_witness :
  let res := calculateIslamicMurabahah (Fin 100000) (Fin 0) 30 in
  Murabahah.totalProfit res = fin 0 /\
  Murabahah.sellingPrice res = Murabahah.principal res /\
  Murabahah.monthlyPayment res
  = roundToTwoDecimals (monthlyPayment (calculateMonthlyPayment (Fin 100000) (Fin 0) 30)).
Proof. apply (murabahah_zero_rate 100000 30). reflexivity. Defined.

(** ** calculateAffordability *)

Lemma available_Fin (I c d : Q) :
  (Fin I * Fin d - Fin c)%num = fin (I * d - c).
Proof. nred. apply fin_eq. now qnorm. Qed.


(** The object returned when something is left for a mortgage. *)
Lemma calculateAffordability_granted (I c d : Q) (annualRate : num) (t : Z) :
  c < I * d ->
  exists g,
    calculateAffordability (Fin I) (Fin c) (Fin d) annualRate t = Afford.Granted g /\
    Afford.maxLoanAmount g
    = roundToTwoDecimals
        (fin (I * d - c) *
         (Math_pow (lit 1 + annualRate / lit 100 / lit 12) (t * 12) - lit 1) /
         (annualRate / lit 100 / lit 12 *
          Math_pow (lit 1 + annualRate / lit 100 / lit 12) (t * 12)))%num /\
    Afford.estimatedPropertyPrice g
    = roundToTwoDecimals
        (fin (I * d - c) *
         (Math_pow (lit 1 + annualRate / lit 100 / lit 12) (t * 12) - lit 1) /
         (annualRate / lit 100 / lit 12 *
          Math_pow (lit 1 + annualRate / lit 100 / lit 12) (t * 12)) / lit 0.9)%num /\
    Afford.maxMonthlyPayment g = fin (round_half_up_2 (I * d - c)) /\
    Afford.currentDSR g = roundToTwoDecimals (Fin c / Fin I * lit 100)%num /\
    Afford.maxDSR g = fin (round_half_up_2 (d * 100)) /\
    Afford.availableDSR g
    = roundToTwoDecimals (fin (I * d - c) / Fin I * lit 100)%num.
Proof.
  intros H. unfold calculateAffordability. rewrite available_Fin.
  assert (E : (fin (I * d - c) <= lit 0)%num = false).
  { apply not_true_iff_false. unfold lit, fin. rewrite nle_Fin. qnorm. lra. }
  rewrite E. eexists. split; [reflexivity |].
  cbn [Afford.maxLoanAmount Afford.estimatedPropertyPrice Afford.maxMonthlyPayment
       Afford.currentDSR Afford.maxDSR Afford.availableDSR].
  split; [reflexivity |]. split; [reflexivity |].
  split; [| split; [reflexivity | split; [| reflexivity]]].
  - unfold fin at 1. rewrite roundToTwoDecimals_Fin. apply fin_eq. now qnorm.
  - nred. rewrite roundToTwoDecimals_Fin. apply fin_eq. now qnorm.
Qed.



(** X10: [calculateAffordability] has no zero-rate branch: at rate 0, when
    something is left for a mortgage, canAfford is true but maxLoanAmount
    and estimatedPropertyPrice are 0/0 = NaN, whatever the tenure. *)
Theorem affordability_zero_rate_NaN (I c d : Q) (t : Z) :
  c < I * d ->
  exists g,
    calculateAffordability (Fin I) (Fin c) (Fin d) (Fin 0) t = Afford.Granted g /\
    Afford.maxLoanAmount g = NaN /\
    Afford.estimatedPropertyPrice g = NaN.
Proof.
  intros H.
  destruct (calculateAffordability_granted I c d (Fin 0) t H)
    as (g & Hg & HL & HE & _).
  exists g. split; [exact Hg |].
  assert (Hpow : Math_pow (lit 1 + Fin 0 / lit 100 / lit 12) (t * 12) = fin 1).
  { rewrite monthlyRate_Fin. nred. unfold Math_pow.
    destruct (Z.eqb_spec (t * 12) 0) as [_ | Hn]; [reflexivity |].
    change (Qeq_bool (Qred (Qred 1 + Qred (0 / 100 / 12))) 0) with false.
    rewrite andb_false_r. apply fin_eq.
    change (Qred (Qred 1 + Qred (0 / 100 / 12))) with 1.
    apply Qpower_1. }
  assert (EL : (fin (I * d - c) *
         (Math_pow (lit 1 + Fin 0 / lit 100 / lit 12) (t * 12) - lit 1) /
         (Fin 0 / lit 100 / lit 12 *
          Math_pow (lit 1 + Fin 0 / lit 100 / lit 12) (t * 12)))%num = NaN).
  { rewrite Hpow, monthlyRate_Fin. change (fin (0 / 100 / 12)) with (fin 0). nred.
    rewrite ndiv_Fin_zero by (qnorm; reflexivity).
    rewrite Qcompare_Eq; [reflexivity |]. qnorm. ring. }
  rewrite HL, HE, EL. split; reflexivity.
Qed.

Lemma affordability_zero_rate_NaN_witness :
  exists g,
    calculateAffordability (Fin 8000) (Fin 1000) (Fin 0.6) (Fin 0) 30 = Afford.Granted g /\
    Afford.maxLoanAmount g = NaN /\
    Afford.estimatedPropertyPrice g = NaN.
Proof. apply (affordability_zero_rate_NaN 8000 1000 0.6 30). reflexivity. Defined.

Lemma round_half_up_2_add (x y : Q) :
  Qabs (round_half_up_2 x + round_half_up_2 y - round_half_up_2 (x + y)) <= 1 # 100.
Proof.
  unfold round_half_up_2.
  pose proof (Qfloor_le (x * 100 + (1 # 2))) as A1.
  pose proof (Qlt_floor (x * 100 + (1 # 2))) as A2.
  pose proof (Qfloor_le (y * 100 + (1 # 2))) as B1.
  pose proof (Qlt_floor (y * 100 + (1 # 2))) as B2.
  pose proof (Qfloor_le ((x + y) * 100 + (1 # 2))) as C1.
  pose proof (Qlt_floor ((x + y) * 100 + (1 # 2))) as C2.
  set (A := Qfloor (x * 100 + (1 # 2))) in *.
  set (B := Qfloor (y * 100 + (1 # 2))) in *.
  set (C := Qfloor ((x + y) * 100 + (1 # 2))) in *.
  rewrite inject_Z_plus in A2, B2, C2. change (inject_Z 1) with 1 in A2, B2, C2.
  assert (U : (A + B <= C + 1)%Z).
  { apply Z.lt_succ_r. unfold Z.succ. rewrite Zlt_Qlt, !inject_Z_plus.
    change (inject_Z 1) with 1. lra. }
  assert (L : (C <= A + B + 1)%Z).
  { apply Z.lt_succ_r. unfold Z.succ. rewrite Zlt_Qlt, !inject_Z_plus.
    change (inject_Z 1) with 1. lra. }
  rewrite Zle_Qle, !inject_Z_plus in U, L. change (inject_Z 1) with 1 in U, L.
  set (qa := inject_Z A) in *. set (qb := inject_Z B) in *. set (qc := inject_Z C) in *.
  assert (E : qa / 100 + qb / 100 - qc / 100 == (qa + qb - qc) * (1 # 100))
    by (field; discriminate).
  rewrite E. apply Qabs_Qle_condition. split; lra.
Qed.

(** X11: when a mortgage is granted (income > 0), the three percentages
    reported are consistent: currentDSR + availableDSR equals maxDSR up to
    one hundredth of a percentage point. *)
Theorem affordability_dsr_adds_up (I c d : Q) (annualRate : num) (t : Z) :
  0 < I -> c < I * d ->
  exists g (cur av mx : Q),
    calculateAffordability (Fin I) (Fin c) (Fin d) annualRate t = Afford.Granted g /\
    Afford.currentDSR g = fin cur /\
    Afford.availableDSR g = fin av /\
    Afford.maxDSR g = fin mx /\
    Qabs (cur + av - mx) <= 1 # 100.
Proof.
  intros HI H.
  destruct (calculateAffordability_granted I c d annualRate t H)
    as (g & Hg & _ & _ & _ & Hcur & Hmax & Hav).
  exists g, (round_half_up_2 (c / I * 100)),
         (round_half_up_2 ((I * d - c) / I * 100)), (round_half_up_2 (d * 100)).
  split; [exact Hg |]. split; [| split; [| split; [exact Hmax |]]].
  - rewrite Hcur. nred. rewrite ndiv_Fin by lra. nred.
    rewrite roundToTwoDecimals_Fin. apply fin_eq. now qnorm.
  - rewrite Hav. nred. rewrite ndiv_Fin by lra. nred.
    rewrite roundToTwoDecimals_Fin. apply fin_eq. now qnorm.
  - assert (E : d * 100 == c / I * 100 + (I * d - c) / I * 100) by (field; lra).
    rewrite E. apply round_half_up_2_add.
Qed.

Lemma affordability_dsr_adds_up_witness :
  exists g (cur av mx : Q),
    calculateAffordability (Fin 8000) (Fin 1000) (Fin 0.6) (Fin 4) 30 = Afford.Granted g /\
    Afford.currentDSR g = fin cur /\
    Afford.availableDSR g = fin av /\
    Afford.maxDSR g = fin mx /\
    Qabs (cur + av - mx) <= 1 # 100.
Proof. apply (affordability_dsr_adds_up 8000 1000 0.6 (Fin 4) 30); reflexivity. Defined.

(** ** calculateStampDutyLoan *)

(** The result of [calculateStampDutyLoan] on finite amounts. *)
Lemma calculateStampDutyLoan_Fin (loan price : Q) (ftb : bool) :
  let exempt :=
    if ftb && Qle_bool price 500000 then Qmin loan 500000 * 0.005 else 0 in
  let res := calculateStampDutyLoan (Fin loan) ftb (Fin price) in
  LoanDuty.grossStampDuty res = fin (round_half_up_2 (loan * 0.005)) /\
  LoanDuty.exemption res = fin (round_half_up_2 exempt) /\
  LoanDuty.netStampDuty res = fin (round_half_up_2 (loan * 0.005 - exempt)) /\
  LoanDuty.exemptionNote res
  = (if ftb && Qle_bool price 500000 then noteLoanFirstTimeBuyer else EmptyString).
Proof.
  intros exempt res. unfold res, calculateStampDutyLoan, exempt.
  cbn [sdl_rate sdl_maxExemption sdl_firstTimeBuyerMaxPrice STAMP_DUTY_LOAN].
  assert (E1 : (Fin price <= lit 500000)%num = Qle_bool price 500000).
  { apply eq_true_iff_eq. unfold lit, fin. rewrite nle_Fin, Qle_bool_iff. now qnorm. }
  rewrite E1.
  destruct (ftb && Qle_bool price 500000);
    cbn [LoanDuty.grossStampDuty LoanDuty.exemption LoanDuty.netStampDuty
         LoanDuty.exemptionNote]; nred; rewrite ?Math_min_Fin; nred;
    rewrite !roundToTwoDecimals_Fin; repeat split; apply fin_eq; now qnorm.
Qed.





(** ** The fee scale *)

Lemma LEGAL_tiers_scale : lf_scale LEGAL_FEES = map tier_of LEGAL_tiers.
Proof. reflexivity. Qed.

Lemma feeBody_tierBody (tier : Tier) (st : TierState) :
  feeBody tier (fee_state_of st) = fee_state_of (tierBody tier st).
Proof.
  unfold feeBody, tierBody, fee_state_of.
  cbn [fs_fees fs_remainingValue fs_breakdown ts_stampDuty ts_remainingValue
       ts_breakdown].
  now rewrite map_app.
Qed.

(** The two loops compute the same thing. *)
Lemma walkScale_walkTiers (tiers : list Tier) :
  forall st, walkScale tiers (fee_state_of st) = fee_state_of (walkTiers tiers st).
Proof.
  induction tiers as [| tier rest IH]; intros st; [reflexivity |].
  cbn [walkScale walkTiers].
  change (fs_remainingValue (fee_state_of st)) with (ts_remainingValue st).
  destruct (ts_remainingValue st <= lit 0)%num; [reflexivity |].
  now rewrite feeBody_tierBody, IH.
Qed.

(** The state in which the loop of [calculateLegalFees] ends, for a finite
    amount. *)
Lemma LEGAL_walk (a : Q) :
  let st := walkScale (lf_scale LEGAL_FEES)
              {| fs_fees := lit 0; fs_remainingValue := Fin a; fs_breakdown := [] |} in
  is_fin (fs_fees st) (levy_total LEGAL_tiers a) /\
  fs_breakdown st = map legal_of (map entry_of (levy LEGAL_tiers a)).
Proof.
  cbv zeta. rewrite LEGAL_tiers_scale.
  change {| fs_fees := lit 0; fs_remainingValue := Fin a; fs_breakdown := [] |}
    with (fee_state_of {| ts_stampDuty := Fin (Qred 0); ts_remainingValue := Fin a;
                          ts_breakdown := [] |}).
  rewrite walkScale_walkTiers.
  destruct (walkTiers_levy LEGAL_tiers (Qred 0) a []) as [H1 H2].
  cbv zeta in H1, H2. cbn [fee_state_of fs_fees fs_breakdown].
  split; [| now rewrite H2].
  destruct (ts_stampDuty _); try contradiction. cbn [is_fin] in *.
  rewrite H1. unfold levy_total. qnorm. ring.
Qed.

Lemma LEGAL_tiers_in_cents : full_tiers_in_cents LEGAL_tiers.
Proof.
  intros t h Hin Hh.
  destruct Hin as [<- | [<- | [<- | [<- | [<- | [<- | []]]]]]]; cbn in Hh;
    try discriminate; injection Hh as <-.
  - exists 500000%Z. reflexivity.
  - exists 400000%Z. reflexivity.
  - exists 1400000%Z. reflexivity.
  - exists 1200000%Z. reflexivity.
  - exists 1250000%Z. reflexivity.
Qed.

Lemma additional_fees_total :
  fold_left nadd (map snd (lf_additionalFees LEGAL_FEES)) (lit 0) = lit 2100.
Proof. reflexivity. Qed.


(** X15: for an amount <= 0 the loop of [calculateLegalFees] does not run:
    the breakdown is empty and baseFees is 0, yet totalFees is the 2100 of
    additional fees. *)
Theorem legal_fees_nothing_to_charge (a : Q) :
  a <= 0 ->
  let res := calculateLegalFees (Fin a) in
  Legal.breakdown res = [] /\
  Legal.baseFees res = lit 0 /\
  Legal.totalFees res = lit 2100.
Proof.
  intros Ha res. unfold res, calculateLegalFees.
  assert (E : (Fin a <= lit 0)%num = true).
  { unfold lit, fin. apply nle_Fin. now qnorm. }
  cbn [lf_scale LEGAL_FEES walkScale fs_remainingValue]. rewrite E.
  cbn [fs_fees fs_breakdown Legal.breakdown Legal.baseFees Legal.totalFees].
  rewrite additional_fees_total. repeat split.
Qed.

Lemma legal_fees_nothing_to_charge_witness :
  let res := calculateLegalFees (Fin 0) in
  Legal.breakdown res = [] /\
  Legal.baseFees res = lit 0 /\
  Legal.totalFees res = lit 2100.
Proof. apply (legal_fees_nothing_to_charge 0). discriminate. Defined.

(** ** The levy as a function of the amount *)

Lemma Qle_bool_false (x y : Q) : Qle_bool x y = false <-> y < x.
Proof.
  rewrite <- not_true_iff_false, Qle_bool_iff. split; intros H.
  - now apply Qnot_le_lt.
  - now apply Qlt_not_le.
Qed.

Lemma levy_total_cons (t : QTier) (rest : list QTier) (rem : Q) :
  0 < rem ->
  levy_total (t :: rest) rem
  == taxable t rem * q_rate t + levy_total rest (rem - taxable t rem).
Proof.
  intros H. unfold levy_total. cbn [levy].
  assert (E : Qle_bool rem 0 = false) by now apply Qle_bool_false.
  rewrite E. reflexivity.
Qed.

Lemma levy_total_nothing (tiers : list QTier) (rem : Q) :
  rem <= 0 -> levy_total tiers rem == 0.
Proof.
  intros H. unfold levy_total. rewrite levy_nothing_left; [reflexivity |].
  now apply Qle_bool_iff.
Qed.

Lemma taxable_bounds (t : QTier) (rem : Q) :
  (forall h, q_max t = Some h -> q_min t <= h) ->
  0 <= rem -> 0 <= taxable t rem /\ taxable t rem <= rem.
Proof.
  intros Hw Hrem. unfold taxable. destruct (q_max t) as [h |]; [| split; lra].
  specialize (Hw h eq_refl).
  destruct (Q.min_spec rem (h - q_min t)) as [[Hm E] | [Hm E]]; rewrite E;
    split; lra.
Qed.

Lemma taxable_mono (t : QTier) (a b : Q) :
  a <= b ->
  taxable t a <= taxable t b /\ a - taxable t a <= b - taxable t b.
Proof.
  intros H. unfold taxable. destruct (q_max t) as [h |]; [| split; lra].
  destruct (Q.min_spec a (h - q_min t)) as [[Ha E] | [Ha E]]; rewrite E;
    destruct (Q.min_spec b (h - q_min t)) as [[Hb F] | [Hb F]]; rewrite F;
    split; lra.
Qed.

Lemma tiers_well_formed_tail (t : QTier) (rest : list QTier) :
  tiers_well_formed (t :: rest) -> tiers_well_formed rest.
Proof. intros H t' Hin. apply H. now right. Qed.

Lemma levy_total_nonneg (tiers : list QTier) :
  tiers_well_formed tiers -> forall rem, 0 <= levy_total tiers rem.
Proof.
  induction tiers as [| t rest IH]; intros Hwf rem; [apply Qle_refl |].
  destruct (Qlt_le_dec 0 rem) as [Hpos | Hneg].
  - rewrite levy_total_cons by exact Hpos.
    destruct (Hwf t (or_introl eq_refl)) as [Hr Hw].
    destruct (taxable_bounds t rem Hw (Qlt_le_weak _ _ Hpos)) as [H0 _].
    assert (0 <= taxable t rem * q_rate t) by (apply Qmult_le_0_compat; assumption).
    pose proof (IH (tiers_well_formed_tail t rest Hwf) (rem - taxable t rem)).
    lra.
  - rewrite levy_total_nothing by exact Hneg. lra.
Qed.

(** A larger amount is never charged less. *)
Lemma levy_total_mono (tiers : list QTier) :
  tiers_well_formed tiers ->
  forall a b, a <= b -> levy_total tiers a <= levy_total tiers b.
Proof.
  induction tiers as [| t rest IH]; intros Hwf a b Hab; [apply Qle_refl |].
  destruct (Qlt_le_dec 0 a) as [Hpos | Hneg].
  - rewrite !levy_total_cons by lra.
    destruct (Hwf t (or_introl eq_refl)) as [Hr Hw].
    destruct (taxable_mono t a b Hab) as [H1 H2].
    assert (taxable t a * q_rate t <= taxable t b * q_rate t)
      by (apply Qmult_le_compat_r; assumption).
    pose proof (IH (tiers_well_formed_tail t rest Hwf) _ _ H2).
    lra.
  - rewrite (levy_total_nothing _ a) by exact Hneg.
    now apply levy_total_nonneg.
Qed.

Lemma MOT_tiers_well_formed : tiers_well_formed MOT_tiers.
Proof.
  intros t Hin.
  destruct Hin as [<- | [<- | [<- | [<- | []]]]]; cbn [q_rate q_max q_min];
    (split; [discriminate | intros h Hh; try discriminate; injection Hh as <-;
                            discriminate]).
Qed.

Lemma LEGAL_tiers_well_formed : tiers_well_formed LEGAL_tiers.
Proof.
  intros t Hin.
  destruct Hin as [<- | [<- | [<- | [<- | [<- | [<- | []]]]]]];
    cbn [q_rate q_max q_min];
    (split; [discriminate | intros h Hh; try discriminate; injection Hh as <-;
                            discriminate]).
Qed.

Lemma calculateLegalFees_base (a : Q) :
  Legal.baseFees (calculateLegalFees (Fin a))
  = fin (round_half_up_2 (levy_total LEGAL_tiers a)).
Proof.
  unfold calculateLegalFees. destruct (LEGAL_walk a) as [Hf _]. cbv zeta in Hf.
  cbn [Legal.baseFees].
  destruct (fs_fees _) as [v | | |]; try contradiction. cbn [is_fin] in Hf.
  rewrite roundToTwoDecimals_Fin. apply fin_eq. now rewrite Hf.
Qed.

Lemma calculateStampDutyMOT_gross_Fin (p : Q) (ftb hoc : bool) :
  grossStampDuty (calculateStampDutyMOT (Fin p) ftb hoc)
  = fin (round_half_up_2 (levy_total MOT_tiers p)).
Proof.
  rewrite calculateStampDutyMOT_gross.
  destruct (MOT_walk p) as [Hd _]. fold (MOT_state (Fin p)) in Hd.
  destruct (ts_stampDuty (MOT_state (Fin p))) as [d | | |]; try contradiction.
  cbn [is_fin] in Hd. rewrite roundToTwoDecimals_Fin. apply fin_eq.
  unfold levy_total. now rewrite Hd.
Qed.

(** X16: a higher amount is never charged less: the gross stamp duty of
    [calculateStampDutyMOT] and the base fee of [calculateLegalFees] are
    monotone in the amount, and never negative. *)
Theorem duty_and_fees_monotone (a b : Q) (ftb hoc ftb' hoc' : bool) :
  a <= b ->
  (grossStampDuty (calculateStampDutyMOT (Fin a) ftb hoc)
   <= grossStampDuty (calculateStampDutyMOT (Fin b) ftb' hoc'))%num = true /\
  (Legal.baseFees (calculateLegalFees (Fin a))
   <= Legal.baseFees (calculateLegalFees (Fin b)))%num = true /\
  nonneg_fin (grossStampDuty (calculateStampDutyMOT (Fin a) ftb hoc)) /\
  nonneg_fin (Legal.baseFees (calculateLegalFees (Fin a))).
Proof.
  intros Hab.
  rewrite !calculateStampDutyMOT_gross_Fin, !calculateLegalFees_base.
  split; [| split; [| split]].
  - unfold fin. apply nle_Fin. rewrite !Qred_correct.
    apply round_half_up_2_mono, levy_total_mono;
      [apply MOT_tiers_well_formed | exact Hab].
  - unfold fin. apply nle_Fin. rewrite !Qred_correct.
    apply round_half_up_2_mono, levy_total_mono;
      [apply LEGAL_tiers_well_formed | exact Hab].
  - eexists. split; [reflexivity |].
    apply round_half_up_2_nonneg, levy_total_nonneg, MOT_tiers_well_formed.
  - eexists. split; [reflexivity |].
    apply round_half_up_2_nonneg, levy_total_nonneg, LEGAL_tiers_well_formed.
Qed.

Lemma duty_and_fees_monotone_witness :
  (grossStampDuty (calculateStampDutyMOT (Fin 450000) false false)
   <= grossStampDuty (calculateStampDutyMOT (Fin 600000) true true))%num = true /\
  (Legal.baseFees (calculateLegalFees (Fin 450000))
   <= Legal.baseFees (calculateLegalFees (Fin 600000)))%num = true /\
  nonneg_fin (grossStampDuty (calculateStampDutyMOT (Fin 450000) false false)) /\
  nonneg_fin (Legal.baseFees (calculateLegalFees (Fin 450000))).
Proof.
  apply (duty_and_fees_monotone 450000 600000 false false true true). discriminate.
Defined.

(** *** Nothing escapes the walk *)

Lemma levy_taxable_sum (tiers : list QTier) :
  tiers_well_formed tiers -> ends_unbounded tiers ->
  forall rem, 0 <= rem -> Qsum (map snd (levy tiers rem)) == rem.
Proof.
  induction tiers as [| t rest IH]; intros Hwf Hend rem Hrem; [contradiction |].
  cbn [levy]. destruct (Qle_bool rem 0) eqn:E.
  - apply Qle_bool_iff in E. cbn. lra.
  - apply Qle_bool_false in E.
    cbn [map Qsum fold_right snd]. fold (Qsum (map snd (levy rest (rem - taxable t rem)))).
    destruct (Hwf t (or_introl eq_refl)) as [_ Hw].
    destruct (taxable_bounds t rem Hw Hrem) as [H0 H1].
    destruct rest as [| u rest'].
    + cbn [ends_unbounded] in Hend. unfold taxable. rewrite Hend. cbn. lra.
    + rewrite IH; [lra | | exact Hend | lra].
      now apply tiers_well_formed_tail with t.
Qed.

Lemma levy_rounded_taxable_sum (tiers : list QTier) :
  tier_widths_in_cents tiers ->
  forall rem acc, is_cent acc ->
  acc + Qsum (map (fun e => round_half_up_2 (snd e)) (levy tiers rem))
  == round_half_up_2 (acc + Qsum (map snd (levy tiers rem))).
Proof.
  induction tiers as [| t rest IH]; intros Hc rem acc Hacc.
  - cbn. rewrite Qplus_0_r. symmetry. now apply round_half_up_2_cent.
  - cbn [levy]. destruct (Qle_bool rem 0).
    + cbn. rewrite Qplus_0_r. symmetry. now apply round_half_up_2_cent.
    + cbn [map Qsum fold_right snd].
      fold (Qsum (map snd (levy rest (rem - taxable t rem)))).
      fold (Qsum (map (fun e => round_half_up_2 (snd e))
                      (levy rest (rem - taxable t rem)))).
      destruct (Qle_bool (rem - taxable t rem) 0) eqn:E.
      * rewrite (levy_nothing_left rest _ E). cbn. rewrite !Qplus_0_r.
        symmetry. now apply round_half_up_2_add_cent.
      * destruct (taxable_full t rem E) as (h & Hh & Ht).
        assert (Hd : is_cent (taxable t rem)).
        { rewrite Ht. apply (Hc t h); [now left | exact Hh]. }
        rewrite (round_half_up_2_cent _ Hd).
        rewrite !Qplus_assoc. apply IH.
        -- intros t' h' Hin. apply Hc. now right.
        -- now apply is_cent_plus.
Qed.

Lemma MOT_widths_in_cents : tier_widths_in_cents MOT_tiers.
Proof.
  intros t h Hin Hh.
  destruct Hin as [<- | [<- | [<- | [<- | []]]]]; cbn in Hh;
    try discriminate; injection Hh as <-.
  - exists 10000000%Z. reflexivity.
  - exists 40000000%Z. reflexivity.
  - exists 50000000%Z. reflexivity.
Qed.

Lemma LEGAL_widths_in_cents : tier_widths_in_cents LEGAL_tiers.
Proof.
  intros t h Hin Hh.
  destruct Hin as [<- | [<- | [<- | [<- | [<- | [<- | []]]]]]]; cbn in Hh;
    try discriminate; injection Hh as <-.
  - exists 50000000%Z. reflexivity.
  - exists 50000000%Z. reflexivity.
  - exists 200000000%Z. reflexivity.
  - exists 200000000%Z. reflexivity.
  - exists 250000000%Z. reflexivity.
Qed.

Lemma rounded_taxable_total (tiers : list QTier) (a : Q) :
  tiers_well_formed tiers -> ends_unbounded tiers -> tier_widths_in_cents tiers ->
  0 <= a ->
  sum_num (map taxableAmount (map entry_of (levy tiers a)))
  = fin (round_half_up_2 a).
Proof.
  intros Hwf Hend Hc Ha.
  assert (E : map taxableAmount (map entry_of (levy tiers a))
              = map fin (map (fun e => round_half_up_2 (snd e)) (levy tiers a))).
  { rewrite !map_map. reflexivity. }
  rewrite E, sum_num_fin. apply fin_eq.
  pose proof (levy_rounded_taxable_sum tiers Hc a 0 is_cent_0) as H.
  rewrite !Qplus_0_l in H. rewrite H.
  apply round_half_up_2_comp. now apply levy_taxable_sum.
Qed.



(** ** calculateTotalUpfrontCosts *)

(** The net duty of [calculateStampDutyMOT] on a finite price. *)
Lemma calculateStampDutyMOT_net (p : Q) (ftb hoc : bool) :
  let d := levy_total MOT_tiers p in
  let ex :=
    if ftb && Qle_bool p 500000 then d * 1
    else if hoc && Qle_bool 300000 p && Qle_bool p 2500000 then d * 0.75
    else 0 in
  netStampDuty (calculateStampDutyMOT (Fin p) ftb hoc)
  = fin (round_half_up_2 (d - ex)).
Proof.
  intros d ex.
  destruct (MOT_walk p) as [Hd _]. fold (MOT_state (Fin p)) in Hd.
  fold (levy_total MOT_tiers p) in Hd. fold d in Hd.
  unfold calculateStampDutyMOT. fold (MOT_state (Fin p)).
  destruct (ts_stampDuty (MOT_state (Fin p))) as [v | | |]; try contradiction.
  cbn [is_fin] in Hd.
  cbn [ftb_maxPrice ftb_exemptionRate firstTimeBuyerExemption STAMP_DUTY_MOT
       hocExemption hoc_minPrice hoc_maxPrice hoc_exemptionRate].
  assert (E1 : (Fin p <= lit 500000)%num = Qle_bool p 500000).
  { apply eq_true_iff_eq. unfold lit, fin. rewrite nle_Fin, Qle_bool_iff. now qnorm. }
  assert (E2 : (Fin p >= lit 300000)%num = Qle_bool 300000 p).
  { apply eq_true_iff_eq. unfold lit, fin. rewrite nge_Fin, Qle_bool_iff. now qnorm. }
  assert (E3 : (Fin p <= lit 2500000)%num = Qle_bool p 2500000).
  { apply eq_true_iff_eq. unfold lit, fin. rewrite nle_Fin, Qle_bool_iff. now qnorm. }
  rewrite E1, E2, E3. unfold ex.
  destruct (ftb && Qle_bool p 500000);
    [| destruct (hoc && Qle_bool 300000 p && Qle_bool p 2500000)];
    cbn [netStampDuty]; nred; rewrite roundToTwoDecimals_Fin; apply fin_eq;
    qnorm; now rewrite Hd.
Qed.

Lemma calculateStampDutyMOT_net_nonneg (p : Q) (ftb hoc : bool) :
  exists q, netStampDuty (calculateStampDutyMOT (Fin p) ftb hoc) = fin q /\ 0 <= q.
Proof.
  pose proof (calculateStampDutyMOT_net p ftb hoc) as H. cbv zeta in H.
  pose proof (levy_total_nonneg MOT_tiers MOT_tiers_well_formed p) as Hd.
  eexists. split; [exact H |]. apply round_half_up_2_nonneg.
  destruct (ftb && Qle_bool p 500000);
    [| destruct (hoc && Qle_bool 300000 p && Qle_bool p 2500000)]; lra.
Qed.

Lemma calculateLegalFees_total (a : Q) :
  exists q, Legal.totalFees (calculateLegalFees (Fin a)) = fin q /\ 2100 <= q.
Proof.
  unfold calculateLegalFees. destruct (LEGAL_walk a) as [Hf _]. cbv zeta in Hf.
  cbn [Legal.totalFees]. rewrite additional_fees_total.
  destruct (fs_fees _) as [v | | |]; try contradiction. cbn [is_fin] in Hf.
  nred. rewrite roundToTwoDecimals_Fin. eexists. split; [reflexivity |].
  assert (E : round_half_up_2 2100 == 2100) by reflexivity.
  rewrite <- E at 1. apply round_half_up_2_mono. qnorm.
  pose proof (levy_total_nonneg LEGAL_tiers LEGAL_tiers_well_formed a). lra.
Qed.

Lemma calculateStampDutyLoan_net_nonneg (loan price : Q) (ftb : bool) :
  0 <= loan ->
  exists q, LoanDuty.netStampDuty (calculateStampDutyLoan (Fin loan) ftb (Fin price))
            = fin q /\ 0 <= q.
Proof.
  intros Hloan.
  destruct (calculateStampDutyLoan_Fin loan price ftb) as (_ & _ & Hn & _).
  eexists. split; [exact Hn |]. apply round_half_up_2_nonneg.
  destruct (ftb && Qle_bool price 500000); [| lra].
  destruct (Q.min_spec loan 500000) as [[Hlt E] | [Hle E]]; rewrite E; lra.
Qed.

(** X18: for a first-time buyer, a property price <= 500000 and a loan
    between 0 and 500000, [calculateTotalUpfrontCosts] charges no stamp
    duty at all: the net duty on the transfer, the net duty on the loan
    agreement and the stamp duty of the summary are 0, whether or not the
    campaign exemption is requested. *)
Theorem first_time_buyer_pays_no_stamp_duty (p loan : Q) (hoc : bool) :
  p <= 500000 -> 0 <= loan -> loan <= 500000 ->
  let res := calculateTotalUpfrontCosts (Fin p) (Fin loan) true hoc in
  netStampDuty (Upfront.stampDutyMOT res) = fin 0 /\
  LoanDuty.netStampDuty (Upfront.stampDutyLoan res) = fin 0 /\
  Upfront.s_stampDuty (Upfront.summ res) = fin 0.
Proof.
  intros Hp Hl0 Hl res. unfold res, calculateTotalUpfrontCosts.
  cbn [Upfront.stampDutyMOT Upfront.stampDutyLoan Upfront.summ Upfront.s_stampDuty].
  assert (Ep : Qle_bool p 500000 = true) by now apply Qle_bool_iff.
  assert (E1 : netStampDuty (calculateStampDutyMOT (Fin p) true hoc) = fin 0).
  { rewrite calculateStampDutyMOT_net. cbn [andb]. rewrite Ep.
    apply fin_eq.
    assert (E : levy_total MOT_tiers p - levy_total MOT_tiers p * 1 == 0) by ring.
    rewrite E. reflexivity. }
  assert (E2 : LoanDuty.netStampDuty (calculateStampDutyLoan (Fin loan) true (Fin p))
               = fin 0).
  { destruct (calculateStampDutyLoan_Fin loan p true) as (_ & _ & Hn & _).
    rewrite Hn. cbn [andb]. rewrite Ep. apply fin_eq.
    rewrite Q.min_l by exact Hl.
    assert (E : loan * 0.005 - loan * 0.005 == 0) by ring.
    rewrite E. reflexivity. }
  rewrite E1, E2. repeat split.
Qed.

Lemma first_time_buyer_pays_no_stamp_duty_witness :
  let res := calculateTotalUpfrontCosts (Fin 450000) (Fin 405000) true false in
  netStampDuty (Upfront.stampDutyMOT res) = fin 0 /\
  LoanDuty.netStampDuty (Upfront.stampDutyLoan res) = fin 0 /\
  Upfront.s_stampDuty (Upfront.summ res) = fin 0.
Proof.
  apply (first_time_buyer_pays_no_stamp_duty 450000 405000 false); discriminate.
Defined.



(** ** The extra-payment simulation: what is paid *)

(** A month's payment on a state of finite numbers. *)
Lemma payMonth_Fin (b m r e ti tp : Q) (k : Z) :
  payMonth (Fin m) (Fin r) (Fin e)
    {| sim_balance := Fin b; sim_month := k;
       sim_totalInterestPaid := Fin ti; sim_totalPaid := Fin tp |}
  = if Qle_bool b (m + e)
    then {| sim_balance := fin 0; sim_month := k;
            sim_totalInterestPaid := fin (ti + b * r);
            sim_totalPaid := fin (tp + (b + b * r)) |}
    else {| sim_balance := fin (b - (m - b * r + e)); sim_month := k;
            sim_totalInterestPaid := fin (ti + b * r);
            sim_totalPaid := fin (tp + (m + e)) |}.
Proof.
  unfold payMonth.
  cbn [sim_balance sim_month sim_totalInterestPaid sim_totalPaid].
  assert (Hcond :
    (Fin b <= (Fin m - Fin b * Fin r + Fin e) + Fin b * Fin r)%num
    = Qle_bool b (m + e)).
  { apply eq_true_iff_eq. nred. rewrite nle_Fin, Qle_bool_iff. qnorm.
    split; intros H; lra. }
  rewrite Hcond. destruct (Qle_bool b (m + e)).
  - f_equal; nred; apply fin_eq; now qnorm.
  - f_equal; nred; apply fin_eq; now qnorm.
Qed.

(** The lump sum on a state of finite numbers. *)
Lemma applyLumpSum_Fin (L b ti tp : Q) (k : Z) (Lm : num) :
  let s := {| sim_balance := Fin b; sim_month := k;
              sim_totalInterestPaid := Fin ti; sim_totalPaid := Fin tp |} in
  applyLumpSum (Fin L) Lm (nextMonth s)
  = {| sim_balance := Fin b; sim_month := k + 1;
       sim_totalInterestPaid := Fin ti; sim_totalPaid := Fin tp |} \/
  (0 < L /\
   applyLumpSum (Fin L) Lm (nextMonth s)
   = {| sim_balance := Fin (Qmax (Qred 0) (Qred (b - L))); sim_month := k + 1;
        sim_totalInterestPaid := Fin ti; sim_totalPaid := fin (tp + L) |}).
Proof.
  intros s. unfold applyLumpSum, s.
  cbn [nextMonth sim_balance sim_month sim_totalInterestPaid sim_totalPaid].
  destruct (Fin L > lit 0)%num eqn:E.
  - destruct (ofZ (k + 1) === Lm)%num; cbn [andb]; [| now left].
    right. split; [now apply ngt_lit0 |].
    nred. now rewrite Math_max_Fin.
  - rewrite andb_false_r. now left.
Qed.

Lemma applyLumpSum_paid_for (P L : Q) (Lm : num) (s : SimState) :
  paid_for P L s -> paid_for P L (applyLumpSum (Fin L) Lm (nextMonth s)).
Proof.
  intros (b & ti & tp & Hb & Hti & Htp & Hb0 & Hle & Heq).
  destruct s as [sb k sti stp]. cbn in Hb, Hti, Htp. subst sb sti stp.
  destruct (applyLumpSum_Fin L b ti tp k Lm) as [E | [HL E]]; cbv zeta in E;
    rewrite E.
  - exists b, ti, tp. repeat split; assumption.
  - exists (Qmax (Qred 0) (Qred (b - L))), ti, (Qred (tp + L)).
    split; [reflexivity |]. split; [reflexivity |]. split; [reflexivity |].
    assert (H1 : 0 <= Qmax (Qred 0) (Qred (b - L))).
    { apply Q.max_le_iff. left. rewrite Qred_correct. lra. }
    assert (H2 : b - L <= Qmax (Qred 0) (Qred (b - L))).
    { apply Q.max_le_iff. right. rewrite Qred_correct. lra. }
    split; [exact H1 |]. split; [rewrite Qred_correct; lra |].
    intros C. lra.
Qed.

Lemma payMonth_paid_for (P L m r e : Q) (s : SimState) :
  0 <= r ->
  paid_for P L s -> (sim_balance s > lit 0)%num = true ->
  paid_for P L (payMonth (Fin m) (Fin r) (Fin e) s).
Proof.
  intros Hr (b & ti & tp & Hb & Hti & Htp & Hb0 & Hle & Heq) Hpos.
  destruct s as [sb k sti stp]. cbn in Hb, Hti, Htp. subst sb sti stp.
  cbn [sim_balance] in Hpos. apply ngt_lit0 in Hpos.
  assert (Hi : 0 <= b * r) by (apply Qmult_le_0_compat; lra).
  rewrite payMonth_Fin. destruct (Qle_bool b (m + e)) eqn:E.
  - exists (Qred 0), (Qred (ti + b * r)), (Qred (tp + (b + b * r))).
    split; [reflexivity |]. split; [reflexivity |]. split; [reflexivity |].
    rewrite !Qred_correct. split; [lra |]. split; [lra |].
    intros C. specialize (Heq C). lra.
  - apply Qle_bool_false in E.
    exists (Qred (b - (m - b * r + e))), (Qred (ti + b * r)), (Qred (tp + (m + e))).
    split; [reflexivity |]. split; [reflexivity |]. split; [reflexivity |].
    rewrite !Qred_correct. split; [lra |]. split; [lra |].
    intros C. specialize (Heq C). lra.
Qed.

(** When the loop ends, nothing is owed and the principal is paid for. *)
Lemma simulate_paid_for (P m r e L : Q) (Lm : num) :
  0 <= r ->
  forall (fuel : nat) (s s' : SimState),
  paid_for P L s ->
  simulate fuel (Fin m) (Fin r) (Fin e) (Fin L) Lm s = Some s' ->
  exists ti tp : Q,
    sim_totalInterestPaid s' = Fin ti /\
    sim_totalPaid s' = Fin tp /\
    P + ti <= tp /\
    (L <= 0 -> tp == P + ti).
Proof.
  intros Hr.
  assert (Hend : forall s, paid_for P L s -> (sim_balance s > lit 0)%num = false ->
            exists ti tp : Q,
              sim_totalInterestPaid s = Fin ti /\ sim_totalPaid s = Fin tp /\
              P + ti <= tp /\ (L <= 0 -> tp == P + ti)).
  { intros s (b & ti & tp & Hb & Hti & Htp & Hb0 & Hle & Heq) E.
    rewrite Hb in E. apply not_true_iff_false in E. rewrite ngt_lit0 in E.
    exists ti, tp. split; [exact Hti |]. split; [exact Htp |].
    split; [lra |]. intros C. specialize (Heq C). lra. }
  intros fuel. induction fuel as [| fuel IH]; intros s s' Hs Hrun.
  - cbn [simulate] in Hrun.
    destruct (sim_balance s > lit 0)%num eqn:E; [discriminate |].
    injection Hrun as <-. now apply Hend.
  - destruct (sim_balance s > lit 0)%num eqn:E.
    + rewrite simulate_step in Hrun by exact E.
      pose proof (applyLumpSum_paid_for P L Lm s Hs) as Hs1.
      set (s1 := applyLumpSum (Fin L) Lm (nextMonth s)) in *.
      destruct (sim_balance s1 <= lit 0)%num eqn:E1.
      * injection Hrun as <-. apply Hend; [exact Hs1 |].
        unfold ngt. destruct Hs1 as (b1 & _ & _ & Hb1 & _).
        rewrite Hb1 in E1 |- *. apply not_true_iff_false.
        fold (Fin b1 > lit 0)%num. rewrite ngt_lit0.
        unfold lit, fin in E1. apply nle_Fin in E1. rewrite Qred_correct in E1. lra.
      * apply (IH _ _ (payMonth_paid_for P L m r e s1 Hr Hs1
                         ltac:(destruct Hs1 as (b1 & _ & _ & Hb1 & _);
                               rewrite Hb1 in E1 |- *; apply ngt_lit0;
                               unfold lit, fin in E1;
                               apply not_true_iff_false in E1;
                               rewrite nle_Fin, Qred_correct in E1; lra)) Hrun).
    + rewrite simulate_stops in Hrun by exact E.
      injection Hrun as <-. now apply Hend.
Qed.



(** X21: a lump sum in month 1 that is at least the principal ends the
    simulation in month 1 with no interest, but the whole lump sum is
    counted as paid, not just the principal. *)
Theorem lump_sum_pays_off_at_once (P a e L : Q) (t : Z) (fuel : nat) :
  0 < P -> P <= L -> 0 <= a -> (0 < t)%Z ->
  exists res,
    calculateExtraPaymentImpact (S fuel) (Fin P) (Fin a) t (Fin e) (Fin L) (lit 1)
    = Some res /\
    Extra.totalMonths (Extra.withExtra res) = 1%Z /\
    Extra.monthsSaved (Extra.saved res) = (t * 12 - 1)%Z /\
    Extra.totalInterest (Extra.withExtra res) = fin 0 /\
    Extra.totalPayment (Extra.withExtra res) = roundToTwoDecimals (Fin L).
Proof.
  intros HP HL Ha Ht. unfold calculateExtraPaymentImpact.
  destruct (monthlyPayment_finite P a t HP Ha Ht) as (m & Hm & _ & _).
  rewrite Hm, simulate_step by (cbn [sim_balance]; now apply ngt_lit0).
  assert (E : applyLumpSum (Fin L) (lit 1)
                (nextMonth {| sim_balance := Fin P; sim_month := 0;
                              sim_totalInterestPaid := lit 0; sim_totalPaid := lit 0 |})
              = {| sim_balance := Fin (Qmax (Qred 0) (Qred (P - L)));
                   sim_month := 1;
                   sim_totalInterestPaid := lit 0;
                   sim_totalPaid := (lit 0 + Fin L)%num |}).
  { unfold applyLumpSum.
    cbn [nextMonth sim_balance sim_month sim_totalInterestPaid sim_totalPaid].
    change (ofZ (0 + 1) === lit 1)%num with true.
    assert (G : (Fin L > lit 0)%num = true) by (apply ngt_lit0; lra).
    rewrite G. cbn [andb]. nred. now rewrite Math_max_Fin. }
  rewrite E. cbn [sim_balance].
  assert (E0 : (Fin (Qmax (Qred 0) (Qred (P - L))) <= lit 0)%num = true).
  { unfold lit, fin. apply nle_Fin. rewrite Qred_correct.
    apply Q.max_lub; rewrite ?Qred_correct; lra. }
  rewrite E0. eexists. split; [reflexivity |].
  cbn [Extra.withExtra Extra.saved Extra.totalMonths Extra.monthsSaved
       Extra.totalInterest Extra.totalPayment sim_month sim_totalInterestPaid
       sim_totalPaid].
  split; [reflexivity |]. split; [reflexivity |]. split; [reflexivity |].
  nred. rewrite !roundToTwoDecimals_Fin. apply fin_eq. qnorm.
  apply round_half_up_2_comp. ring.
Qed.

Lemma lump_sum_pays_off_at_once_witness :
  exists res,
    calculateExtraPaymentImpact (S 0) (Fin 1000) (Fin 12) 1 (Fin 0) (Fin 1500) (lit 1)
    = Some res /\
    Extra.totalMonths (Extra.withExtra res) = 1%Z /\
    Extra.monthsSaved (Extra.saved res) = (1 * 12 - 1)%Z /\
    Extra.totalInterest (Extra.withExtra res) = fin 0 /\
    Extra.totalPayment (Extra.withExtra res) = roundToTwoDecimals (Fin 1500).
Proof.
  apply (lump_sum_pays_off_at_once 1000 12 0 1500 1 0);
    [reflexivity | discriminate | discriminate | reflexivity].
Defined.

(** ** The rows of the amortization schedule *)

Lemma inject_Z_sub (x y : Z) : inject_Z (x - y) == inject_Z x - inject_Z y.
Proof. unfold Z.sub. rewrite inject_Z_plus, inject_Z_opp. ring. Qed.

Lemma Qceiling_twelfth (k : Z) :
  Qceiling (inject_Z k / 12) = ((k + 11) / 12)%Z.
Proof.
  set (q := ((k + 11) / 12)%Z).
  assert (H1 : (12 * q <= k + 11)%Z) by (apply Z.mul_div_le; lia).
  assert (H2 : (k + 11 < 12 * (q + 1))%Z).
  { replace (q + 1)%Z with (Z.succ q) by lia. apply Z.mul_succ_div_gt. lia. }
  assert (A1 : inject_Z q - 1 < inject_Z k / 12).
  { apply Qlt_shift_div_l; [reflexivity |].
    assert (A : (12 * q - 12 < k)%Z) by lia.
    rewrite Zlt_Qlt in A. rewrite inject_Z_sub, inject_Z_mult in A.
    change (inject_Z 12) with 12 in A. lra. }
  assert (A2 : inject_Z k / 12 <= inject_Z q).
  { apply Qle_shift_div_r; [reflexivity |].
    assert (A : (k <= 12 * q)%Z) by lia.
    rewrite Zle_Qle in A. rewrite inject_Z_mult in A.
    change (inject_Z 12) with 12 in A. lra. }
  unfold Qceiling.
  rewrite (Qfloor_unique (- (inject_Z k / 12)) (- q)); [lia | |].
  - rewrite inject_Z_opp. lra.
  - rewrite inject_Z_plus, inject_Z_opp. change (inject_Z 1) with 1. lra.
Qed.

Lemma year_of_month (k : Z) :
  Math_ceil (ofZ k / lit 12) = ofZ ((k + 11) / 12).
Proof.
  rewrite <- Qceiling_twelfth. unfold ofZ at 1. unfold lit, fin.
  rewrite ndiv_Fin by (apply Qred_lit_nz; discriminate).
  unfold fin. cbn [Math_ceil]. f_equal.
  apply Qceiling_comp. now qnorm.
Qed.

(** X22: in every row of the schedule the year is ceil(month / 12), that is
    (month + 11) div 12: months 1 to 12 are year 1, months 13 to 24 year 2,
    and so on, whatever the loan. *)
Theorem schedule_year_column (principal annualRate : num) (tenureYears : Z) :
  Forall (fun row => Row.year row = ofZ ((Row.month row + 11) / 12))
    (generateAmortizationSchedule principal annualRate tenureYears).
Proof.
  unfold generateAmortizationSchedule.
  apply (fold_left_invariant _
           (fun st => Forall (fun row => Row.year row = ofZ ((Row.month row + 11) / 12))
                        (sch_schedule st))).
  - intros st k H. unfold scheduleBody. cbn [sch_schedule].
    apply Forall_app. split; [exact H |].
    constructor; [| constructor]. cbn [Row.year Row.month]. apply year_of_month.
  - constructor.
Qed.

Lemma scheduleBody_adds_up (r m : Q) (st : ScheduleState) (s : nat) :
  (exists b ci cp : Q,
     sch_balance st = Fin b /\
     sch_cumulativeInterest st = Fin ci /\
     sch_cumulativePrincipal st = Fin cp /\
     ci + cp == inject_Z (Z.of_nat s - 1) * m) ->
  Forall (row_adds_up m) (sch_schedule st) ->
  let st' := scheduleBody (Fin r) (Fin m) st (Z.of_nat s) in
  (exists b ci cp : Q,
     sch_balance st' = Fin b /\
     sch_cumulativeInterest st' = Fin ci /\
     sch_cumulativePrincipal st' = Fin cp /\
     ci + cp == inject_Z (Z.of_nat (S s) - 1) * m) /\
  Forall (row_adds_up m) (sch_schedule st').
Proof.
  intros (b & ci & cp & Hb & Hci & Hcp & Hsum) Hrows st'.
  unfold st', scheduleBody. rewrite Hb, Hci, Hcp.
  cbn [sch_balance sch_cumulativeInterest sch_cumulativePrincipal sch_schedule].
  nred. rewrite Math_max_Fin.
  assert (Hnext : inject_Z (Z.of_nat (S s) - 1) == inject_Z (Z.of_nat s - 1) + 1).
  { replace (Z.of_nat (S s) - 1)%Z with (Z.of_nat s - 1 + 1)%Z by lia.
    now rewrite inject_Z_plus. }
  assert (Hthis : inject_Z (Z.of_nat s) == inject_Z (Z.of_nat s - 1) + 1).
  { replace (Z.of_nat s) with (Z.of_nat s - 1 + 1)%Z at 1 by lia.
    now rewrite inject_Z_plus. }
  split.
  - eexists _, _, _. split; [reflexivity |]. split; [reflexivity |].
    split; [reflexivity |]. qnorm. rewrite Hnext. lra.
  - apply Forall_app. split; [exact Hrows |].
    constructor; [| constructor].
    exists (Qred (b * r)), (Qred (m - Qred (b * r))),
           (Qred (ci + Qred (b * r))), (Qred (cp + Qred (m - Qred (b * r)))).
    cbn [Row.interest Row.principal Row.payment Row.cumulativeInterest
         Row.cumulativePrincipal Row.month].
    rewrite !roundToTwoDecimals_Fin.
    split; [reflexivity |]. split; [reflexivity |]. split; [reflexivity |].
    split; [qnorm; ring |]. split; [reflexivity |]. split; [reflexivity |].
    qnorm. rewrite Hthis. lra.
Qed.

Lemma schedule_loop_adds_up (r m : Q) :
  forall (len s : nat) (st : ScheduleState),
  (exists b ci cp : Q,
     sch_balance st = Fin b /\
     sch_cumulativeInterest st = Fin ci /\
     sch_cumulativePrincipal st = Fin cp /\
     ci + cp == inject_Z (Z.of_nat s - 1) * m) ->
  Forall (row_adds_up m) (sch_schedule st) ->
  Forall (row_adds_up m)
    (sch_schedule
       (fold_left (scheduleBody (Fin r) (Fin m)) (map Z.of_nat (seq s len)) st)).
Proof.
  induction len as [| len IH]; intros s st Hst Hrows; [exact Hrows |].
  cbn [seq map fold_left].
  destruct (scheduleBody_adds_up r m st s Hst Hrows) as [Hst' Hrows'].
  apply IH; assumption.
Qed.

Lemma schedule_rows_add_up (P a : Q) (t : Z) :
  0 < P -> 0 <= a -> (0 < t)%Z ->
  exists m : Q,
    monthlyPayment (calculateMonthlyPayment (Fin P) (Fin a) t) = Fin m /\
    Forall (row_adds_up m) (generateAmortizationSchedule (Fin P) (Fin a) t).
Proof.
  intros HP Ha Ht.
  destruct (monthlyPayment_finite P a t HP Ha Ht) as (m & Hm & _).
  exists m. split; [exact Hm |].
  unfold generateAmortizationSchedule, monthsUpTo. rewrite Hm, monthlyRate_Fin.
  apply schedule_loop_adds_up; [| constructor].
  exists P, (Qred 0), (Qred 0).
  split; [reflexivity |]. split; [reflexivity |]. split; [reflexivity |].
  rewrite !Qred_correct. cbn [Z.of_nat Z.sub Z.pos_sub Z.of_nat Pos.of_succ_nat].
  change (inject_Z (1 - 1)) with 0. ring.
Qed.

(** X23: for principal > 0, rate >= 0 and tenure > 0, every row of the
    schedule, the last one included, shows the same payment, the monthly
    payment rounded to the cent, and its interest and principal columns add
    up to that payment to within one cent. *)
Theorem schedule_row_splits_payment (P a : Q) (t : Z) :
  0 < P -> 0 <= a -> (0 < t)%Z ->
  exists m : Q,
    monthlyPayment (calculateMonthlyPayment (Fin P) (Fin a) t) = Fin m /\
    Forall (fun row =>
              exists i p : Q,
                Row.interest row = Fin i /\
                Row.principal row = Fin p /\
                Row.payment row = roundToTwoDecimals (Fin m) /\
                Qabs (i + p - round_half_up_2 m) <= 1 # 100)
      (generateAmortizationSchedule (Fin P) (Fin a) t).
Proof.
  intros HP Ha Ht.
  destruct (schedule_rows_add_up P a t HP Ha Ht) as (m & Hm & Hrows).
  exists m. split; [exact Hm |].
  apply (Forall_impl _ (P := row_adds_up m)); [| exact Hrows].
  intros row (i & p & ci & cp & Hi & Hp & Hy & Hip & _).
  exists (Qred (round_half_up_2 i)), (Qred (round_half_up_2 p)).
  split; [exact Hi |]. split; [exact Hp |].
  split; [now rewrite roundToTwoDecimals_Fin |].
  rewrite !Qred_correct, <- Hip. apply round_half_up_2_add.
Qed.

Lemma schedule_row_splits_payment_witness :
  exists m : Q,
    monthlyPayment (calculateMonthlyPayment (Fin 1000) (Fin 12) 1) = Fin m /\
    Forall (fun row =>
              exists i p : Q,
                Row.interest row = Fin i /\
                Row.principal row = Fin p /\
                Row.payment row = roundToTwoDecimals (Fin m) /\
                Qabs (i + p - round_half_up_2 m) <= 1 # 100)
      (generateAmortizationSchedule (Fin 1000) (Fin 12) 1).
Proof.
  apply (schedule_row_splits_payment 1000 12 1);
    [reflexivity | discriminate | reflexivity].
Defined.

(** X24: for principal > 0, rate >= 0 and tenure > 0, in the row of month k
    the cumulative interest and the cumulative principal add up to k monthly
    payments, rounded to the cent, to within one cent. *)
Theorem schedule_cumulative_columns (P a : Q) (t : Z) :
  0 < P -> 0 <= a -> (0 < t)%Z ->
  exists m : Q,
    monthlyPayment (calculateMonthlyPayment (Fin P) (Fin a) t) = Fin m /\
    Forall (fun row =>
              exists ci cp : Q,
                Row.cumulativeInterest row = Fin ci /\
                Row.cumulativePrincipal row = Fin cp /\
                Qabs (ci + cp - round_half_up_2 (inject_Z (Row.month row) * m))
                <= 1 # 100)
      (generateAmortizationSchedule (Fin P) (Fin a) t).
Proof.
  intros HP Ha Ht.
  destruct (schedule_rows_add_up P a t HP Ha Ht) as (m & Hm & Hrows).
  exists m. split; [exact Hm |].
  apply (Forall_impl _ (P := row_adds_up m)); [| exact Hrows].
  intros row (i & p & ci & cp & _ & _ & _ & _ & Hci & Hcp & Hsum).
  exists (Qred (round_half_up_2 ci)), (Qred (round_half_up_2 cp)).
  split; [exact Hci |]. split; [exact Hcp |].
  rewrite !Qred_correct, <- Hsum. apply round_half_up_2_add.
Qed.

Lemma schedule_cumulative_columns_witness :
  exists m : Q,
    monthlyPayment (calculateMonthlyPayment (Fin 1000) (Fin 12) 1) = Fin m /\
    Forall (fun row =>
              exists ci cp : Q,
                Row.cumulativeInterest row = Fin ci /\
                Row.cumulativePrincipal row = Fin cp /\
                Qabs (ci + cp - round_half_up_2 (inject_Z (Row.month row) * m))
                <= 1 # 100)
      (generateAmortizationSchedule (Fin 1000) (Fin 12) 1).
Proof.
  apply (schedule_cumulative_columns 1000 12 1);
    [reflexivity | discriminate | reflexivity].
Defined.

(** ** Break-even of a refinancing *)



(** ** The yearly view *)

Lemma same_key_refl (x : num) : same_key x x = true.
Proof. destruct x; cbn; try reflexivity. apply Qeq_bool_refl. Qed.

Lemma same_key_sym (x y : num) : same_key x y = same_key y x.
Proof.
  destruct x, y; cbn; try reflexivity.
  apply eq_true_iff_eq. rewrite !Qeq_bool_iff. split; intros H; now symmetry.
Qed.

Lemma same_key_trans (x y z : num) :
  same_key x y = true -> same_key y z = true -> same_key x z = true.
Proof.
  destruct x, y, z; cbn; try congruence.
  rewrite !Qeq_bool_iff. intros H1 H2. now rewrite H1.
Qed.

Lemma years_seen_snoc (rows : list Row.t) (r : Row.t) :
  years_seen (rows ++ [r])
  = if existsb (fun k => same_key k (Row.year r)) (years_seen rows)
    then years_seen rows
    else years_seen rows ++ [Row.year r].
Proof. unfold years_seen. now rewrite fold_left_app. Qed.

Lemma distinct_keys_snoc (ks : list num) (k : num) :
  distinct_keys ks ->
  existsb (fun k' => same_key k' k) ks = false ->
  distinct_keys (ks ++ [k]).
Proof.
  induction ks as [| k0 ks IH]; intros Hd He.
  - cbn. split; [constructor | exact I].
  - cbn in He. apply orb_false_iff in He. destruct He as [He0 He].
    destruct Hd as [Hd0 Hd]. cbn. split; [| now apply IH].
    apply Forall_app. split; [exact Hd0 |].
    constructor; [exact He0 | constructor].
Qed.

Lemma years_seen_distinct (rows : list Row.t) : distinct_keys (years_seen rows).
Proof.
  induction rows as [| r rows IH] using rev_ind; [exact I |].
  rewrite years_seen_snoc.
  destruct (existsb _ (years_seen rows)) eqn:E; [exact IH |].
  now apply distinct_keys_snoc.
Qed.

Lemma years_seen_covers (rows : list Row.t) :
  Forall (fun r => existsb (fun k => same_key k (Row.year r)) (years_seen rows) = true)
    rows.
Proof.
  induction rows as [| r rows IH] using rev_ind; [constructor |].
  rewrite years_seen_snoc. apply Forall_app. split.
  - destruct (existsb _ (years_seen rows)) eqn:E; [exact IH |].
    apply (Forall_impl _ (P := fun r0 =>
             existsb (fun k => same_key k (Row.year r0)) (years_seen rows) = true));
      [| exact IH].
    intros r0 H. rewrite existsb_app, H. reflexivity.
  - constructor; [| constructor].
    destruct (existsb _ (years_seen rows)) eqn:E; [exact E |].
    rewrite existsb_app. cbn. rewrite same_key_refl. apply orb_true_r.
Qed.

Lemma existsb_same_key_false (ks : list num) (key : num) :
  existsb (fun k => same_key k key) ks = false ->
  Forall (fun k => same_key k key = false) ks.
Proof.
  induction ks as [| k ks IH]; intros H; [constructor |].
  cbn in H. apply orb_false_iff in H. destruct H as [H0 H].
  constructor; [exact H0 | now apply IH].
Qed.

Lemma getProperty_absent (F : num -> Yearly.t) (ks : list num) (key : num) :
  existsb (fun k => same_key k key) ks = false ->
  getProperty (map (fun k => (k, F k)) ks) key = None.
Proof.
  induction ks as [| k ks IH]; intros H; [reflexivity |].
  cbn in H. apply orb_false_iff in H. destruct H as [H0 H].
  cbn. rewrite H0. now apply IH.
Qed.

Lemma getProperty_present (F : num -> Yearly.t) (ks : list num) (key : num) :
  existsb (fun k => same_key k key) ks = true ->
  exists v, getProperty (map (fun k => (k, F k)) ks) key = Some v.
Proof.
  induction ks as [| k ks IH]; intros H; [discriminate |].
  cbn in H. cbn. destruct (same_key k key); [now eexists |].
  now apply IH.
Qed.

Lemma updateProperty_skip (o o' : YearlyObject) (key : num) (f : Yearly.t -> Yearly.t) :
  Forall (fun kv => same_key (fst kv) key = false) o ->
  updateProperty (o ++ o') key f = o ++ updateProperty o' key f.
Proof.
  induction o as [| [k v] o IH]; intros H; [reflexivity |].
  inversion H as [| ? ? H0 H']; subst. cbn in H0. cbn. rewrite H0.
  f_equal. now apply IH.
Qed.

Lemma updateProperty_map (F : num -> Yearly.t) (ks : list num) (key : num)
  (f : Yearly.t -> Yearly.t) :
  distinct_keys ks ->
  updateProperty (map (fun k => (k, F k)) ks) key f
  = map (fun k => (k, if same_key k key then f (F k) else F k)) ks.
Proof.
  induction ks as [| k ks IH]; intros Hd; [reflexivity |].
  destruct Hd as [Hd0 Hd]. cbn. destruct (same_key k key) eqn:E.
  - f_equal. apply map_ext_in. intros k' Hin.
    rewrite Forall_forall in Hd0. specialize (Hd0 k' Hin).
    destruct (same_key k' key) eqn:E'; [| reflexivity].
    rewrite (same_key_trans k key k' E) in Hd0; [discriminate |].
    now rewrite same_key_sym.
  - f_equal. now apply IH.
Qed.

Lemma sum_num_snoc (l : list num) (x : num) :
  sum_num (l ++ [x]) = (sum_num l + x)%num.
Proof. unfold sum_num. now rewrite fold_left_app. Qed.

Lemma year_entry_snoc (k : num) (rs : list Row.t) (r : Row.t) :
  year_entry k (rs ++ [r]) = addRow r (year_entry k rs).
Proof.
  unfold year_entry, addRow. cbn [Yearly.year Yearly.payment Yearly.principal
    Yearly.interest]. rewrite !map_app. cbn [map].
  now rewrite !sum_num_snoc, !last_snoc.
Qed.

Lemma rows_of_year_snoc (k : num) (rows : list Row.t) (r : Row.t) :
  rows_of_year k (rows ++ [r])
  = rows_of_year k rows ++ (if same_key k (Row.year r) then [r] else []).
Proof. unfold rows_of_year. rewrite filter_app. cbn. now destruct (same_key k (Row.year r)). Qed.

Lemma filter_none {A : Type} (f : A -> bool) (l : list A) :
  (forall x, In x l -> f x = false) -> filter f l = [].
Proof.
  induction l as [| x l IH]; intros H; [reflexivity |].
  cbn. rewrite (H x (or_introl eq_refl)). apply IH.
  intros y Hy. apply H. now right.
Qed.

Lemma filter_all {A : Type} (f : A -> bool) (l : list A) :
  (forall x, In x l -> f x = true) -> filter f l = l.
Proof.
  induction l as [| x l IH]; intros H; [reflexivity |].
  cbn. rewrite (H x (or_introl eq_refl)). f_equal. apply IH.
  intros y Hy. apply H. now right.
Qed.

Lemma rows_of_year_unseen (k : num) (rows : list Row.t) :
  existsb (fun k' => same_key k' k) (years_seen rows) = false ->
  rows_of_year k rows = [].
Proof.
  intros H. apply existsb_same_key_false in H. rewrite Forall_forall in H.
  pose proof (years_seen_covers rows) as Hc. rewrite Forall_forall in Hc.
  apply filter_none. intros r Hr.
  destruct (same_key k (Row.year r)) eqn:E; [| reflexivity].
  specialize (Hc r Hr). apply existsb_exists in Hc. destruct Hc as (k' & Hk' & Hs).
  specialize (H k' Hk').
  rewrite (same_key_trans k' (Row.year r) k Hs) in H;
    [discriminate | now rewrite same_key_sym].
Qed.

(** The object built by the loop of [aggregateYearly]. *)
Lemma yearly_object (rows : list Row.t) :
  fold_left yearlyBody rows []
  = map (fun k => (k, year_entry k (rows_of_year k rows))) (years_seen rows).
Proof.
  induction rows as [| r rows IH] using rev_ind; [reflexivity |].
  rewrite fold_left_app. cbn [fold_left]. rewrite IH, years_seen_snoc.
  unfold yearlyBody.
  destruct (existsb (fun k => same_key k (Row.year r)) (years_seen rows)) eqn:E.
  - destruct (getProperty_present
                (fun k => year_entry k (rows_of_year k rows)) _ _ E) as [v Hv].
    rewrite Hv, updateProperty_map by apply years_seen_distinct.
    apply map_ext. intros k. rewrite rows_of_year_snoc.
    destruct (same_key k (Row.year r)).
    + now rewrite year_entry_snoc.
    + now rewrite app_nil_r.
  - rewrite getProperty_absent by exact E.
    rewrite updateProperty_skip.
    2:{ apply Forall_map. cbn [fst].
        now apply existsb_same_key_false. }
    cbn [updateProperty]. rewrite same_key_refl, map_app. cbn [map].
    rewrite rows_of_year_snoc, same_key_refl, rows_of_year_unseen by exact E.
    f_equal.
    apply map_ext_in. intros k Hk. rewrite rows_of_year_snoc.
    apply existsb_same_key_false in E. rewrite Forall_forall in E.
    rewrite (E k Hk). now rewrite app_nil_r.
Qed.

Lemma insertIndexed_In (e x : Z * Yearly.t) (l : list (Z * Yearly.t)) :
  In x (insertIndexed e l) <-> x = e \/ In x l.
Proof.
  induction l as [| e' l IH]; cbn.
  - intuition congruence.
  - destruct (fst e <=? fst e')%Z; cbn; [intuition congruence |].
    rewrite IH. intuition congruence.
Qed.

Lemma insertIndexed_length (e : Z * Yearly.t) (l : list (Z * Yearly.t)) :
  List.length (insertIndexed e l) = S (List.length l).
Proof.
  induction l as [| e' l IH]; cbn; [reflexivity |].
  destruct (fst e <=? fst e')%Z; cbn; [reflexivity |]. now rewrite IH.
Qed.

Lemma sortIndexed_In (x : Z * Yearly.t) (l : list (Z * Yearly.t)) :
  In x (fold_right insertIndexed [] l) <-> In x l.
Proof.
  induction l as [| e l IH]; cbn; [tauto |].
  rewrite insertIndexed_In, IH. intuition congruence.
Qed.

Lemma sortIndexed_length (l : list (Z * Yearly.t)) :
  List.length (fold_right insertIndexed [] l) = List.length l.
Proof.
  induction l as [| e l IH]; cbn; [reflexivity |].
  now rewrite insertIndexed_length, IH.
Qed.

Lemma Object_values_In (o : YearlyObject) (v : Yearly.t) :
  In v (Object_values o) <-> In v (map snd o).
Proof.
  unfold Object_values. rewrite in_app_iff, !in_map_iff. split.
  - intros [((i & v') & Hv & Hin) | ((k & v') & Hv & Hin)]; cbn in Hv; subst v'.
    + apply sortIndexed_In, in_flat_map in Hin.
      destruct Hin as ((k & v') & Hin & Hx). cbn in Hx.
      destruct (arrayIndex k); [| contradiction].
      destruct Hx as [Hx | []]. injection Hx as _ <-.
      now exists (k, v').
    + apply filter_In in Hin. now exists (k, v).
  - intros ((k & v') & Hv & Hin). cbn in Hv. subst v'.
    destruct (arrayIndex k) as [i |] eqn:E.
    + left. exists (i, v). split; [reflexivity |].
      apply sortIndexed_In, in_flat_map. exists (k, v). split; [exact Hin |].
      cbn. rewrite E. now left.
    + right. exists (k, v). split; [reflexivity |].
      apply filter_In. split; [exact Hin |]. cbn. now rewrite E.
Qed.

Lemma Object_values_length (o : YearlyObject) :
  List.length (Object_values o) = List.length o.
Proof.
  unfold Object_values. rewrite length_app, !length_map, sortIndexed_length.
  induction o as [| [k v] o IH]; [reflexivity |].
  cbn [flat_map filter fst snd]. destruct (arrayIndex k); cbn; lia.
Qed.

(** X26: for any rows, [aggregateYearly] returns one entry for each year
    that occurs, and no other entry; the entry of a year carries that year,
    the sums of the payment, principal and interest columns over the rows
    of the year, and the balance and cumulative interest of the last row of
    the year. *)
Theorem aggregateYearly_groups_by_year (monthlyData : list Row.t) :
  distinct_keys (years_seen monthlyData) /\
  List.length (aggregateYearly monthlyData) = List.length (years_seen monthlyData) /\
  forall e : Yearly.t,
    In e (aggregateYearly monthlyData) <->
    exists k, In k (years_seen monthlyData) /\
              e = year_entry k (rows_of_year k monthlyData).
Proof.
  split; [apply years_seen_distinct |]. unfold aggregateYearly. split.
  - now rewrite Object_values_length, yearly_object, length_map.
  - intros e. rewrite Object_values_In, yearly_object, map_map. cbn [snd].
    rewrite in_map_iff. split; intros (k & H1 & H2); exists k; split; auto.
Qed.

(** *** The yearly view of a schedule *)

Lemma same_key_ofZ (a b : Z) : same_key (ofZ a) (ofZ b) = (a =? b)%Z.
Proof.
  unfold ofZ, fin. cbn [same_key]. apply eq_true_iff_eq.
  rewrite Qeq_bool_iff, !Qred_correct, Z.eqb_eq. split.
  - apply inject_Z_injective.
  - now intros ->.
Qed.

Lemma Qred_inject_Z (z : Z) : Qred (inject_Z z) = inject_Z z.
Proof.
  unfold Qred, inject_Z.
  pose proof (Z.ggcd_gcd z 1) as Hg.
  pose proof (Z.ggcd_correct_divisors z 1) as Hd.
  destruct (Z.ggcd z 1) as (g & aa & bb). cbn [fst snd] in *.
  rewrite Z.gcd_1_r in Hg. subst g. destruct Hd as [Ha Hb].
  rewrite Z.mul_1_l in Ha, Hb. subst aa bb. reflexivity.
Qed.

Lemma arrayIndex_ofZ (z : Z) :
  arrayIndex (ofZ z)
  = if ((0 <=? z) && (z <=? 4294967294))%Z then Some z else None.
Proof.
  unfold ofZ, fin, arrayIndex.
  rewrite !Qred_inject_Z. cbn [inject_Z Qden Qnum]. reflexivity.
Qed.

Lemma ascending_filter (f : Z -> bool) (l : list Z) :
  ascending l -> ascending (filter f l).
Proof.
  induction l as [| x l IH]; intros H; [exact I |].
  destruct H as [H0 H]. cbn. destruct (f x); [| now apply IH].
  cbn. split; [| now apply IH].
  rewrite Forall_forall in *. intros y Hy. apply filter_In in Hy. now apply H0.
Qed.

Lemma sortIndexed_ascending (F : Z -> Yearly.t) (l : list Z) :
  ascending l ->
  fold_right insertIndexed [] (map (fun y => (y, F y)) l)
  = map (fun y => (y, F y)) l.
Proof.
  induction l as [| x l IH]; intros H; [reflexivity |].
  destruct H as [H0 H]. cbn [map fold_right]. rewrite IH by exact H.
  destruct l as [| x' l]; [reflexivity |].
  cbn [map insertIndexed fst]. inversion H0 as [| ? ? Hx _]; subst.
  apply Z.lt_le_incl, Z.leb_le in Hx. now rewrite Hx.
Qed.

Lemma ascending_split (l : list Z) :
  ascending l -> Forall (fun y => (0 <= y)%Z) l ->
  let inb := fun y => ((0 <=? y) && (y <=? 4294967294))%Z in
  filter inb l ++ filter (fun y => negb (inb y)) l = l.
Proof.
  intros Ha Hp inb. induction l as [| x l IH]; [reflexivity |].
  destruct Ha as [Ha0 Ha]. inversion Hp as [| ? ? Hx Hp']; subst.
  cbn [filter]. destruct (inb x) eqn:E; cbn [negb].
  - cbn [app]. f_equal. now apply IH.
  - assert (Hbig : (4294967294 < x)%Z).
    { unfold inb in E. apply andb_false_iff in E.
      destruct E as [E | E]; [apply Z.leb_gt in E; lia | now apply Z.leb_gt in E]. }
    rewrite Forall_forall in Ha0.
    assert (Hout : forall y, In y l -> inb y = false).
    { intros y Hy. specialize (Ha0 y Hy). unfold inb.
      apply andb_false_iff. right. apply Z.leb_gt. lia. }
    rewrite filter_none by exact Hout.
    rewrite filter_all; [reflexivity |].
    intros y Hy. now rewrite Hout.
Qed.

(** [Object.values] on an object whose keys are whole numbers >= 0 created
    in ascending order: the order of creation. *)
Lemma Object_values_ascending (F : Z -> Yearly.t) (l : list Z) :
  ascending l -> Forall (fun y => (0 <= y)%Z) l ->
  Object_values (map (fun y => (ofZ y, F y)) l) = map F l.
Proof.
  intros Ha Hp. unfold Object_values.
  set (inb := fun y => ((0 <=? y) && (y <=? 4294967294))%Z).
  assert (Hi : forall l0,
    flat_map (fun kv : num * Yearly.t =>
                match arrayIndex (fst kv) with
                | Some i => [(i, snd kv)]
                | None => []
                end) (map (fun y => (ofZ y, F y)) l0)
    = map (fun y => (y, F y)) (filter inb l0)).
  { induction l0 as [| x l0 IH]; [reflexivity |].
    cbn [map flat_map filter fst snd]. rewrite arrayIndex_ofZ, IH.
    fold (inb x). now destruct (inb x). }
  assert (Hn : forall l0,
    filter (fun kv : num * Yearly.t =>
              match arrayIndex (fst kv) with
              | Some _ => false
              | None => true
              end) (map (fun y => (ofZ y, F y)) l0)
    = map (fun y => (ofZ y, F y)) (filter (fun y => negb (inb y)) l0)).
  { induction l0 as [| x l0 IH]; [reflexivity |].
    cbn [map filter fst]. rewrite arrayIndex_ofZ, IH.
    fold (inb x). now destruct (inb x). }
  rewrite Hi, Hn, sortIndexed_ascending by now apply ascending_filter.
  rewrite !map_map. cbn [snd]. rewrite <- map_app.
  f_equal. now apply ascending_split.
Qed.

Lemma ascending_seq (n s : nat) :
  ascending (map Z.of_nat (seq s n)) /\
  Forall (fun y => (0 <= y)%Z) (map Z.of_nat (seq s n)).
Proof.
  revert s. induction n as [| n IH]; intros s; [now split |].
  destruct (IH (S s)) as [IH1 IH2]. cbn [seq map ascending]. split.
  - split; [| exact IH1].
    rewrite Forall_forall. intros y Hy. apply in_map_iff in Hy.
    destruct Hy as (j & <- & Hj). apply in_seq in Hj. lia.
  - constructor; [lia | exact IH2].
Qed.

Lemma years_seen_app_year (rows c : list Row.t) (k : num) :
  c <> [] ->
  Forall (fun r => Row.year r = k) c ->
  existsb (fun k' => same_key k' k) (years_seen rows) = false ->
  years_seen (rows ++ c) = years_seen rows ++ [k].
Proof.
  induction c as [| r c IH] using rev_ind; intros Hne Hc E; [congruence |].
  apply Forall_app in Hc. destruct Hc as [Hc Hr].
  inversion Hr as [| ? ? Hk _]; subst.
  rewrite app_assoc, years_seen_snoc.
  destruct c as [| r0 c].
  - rewrite app_nil_r, E. reflexivity.
  - rewrite IH; [| discriminate | exact Hc | exact E].
    rewrite existsb_app. cbn [existsb]. rewrite same_key_refl.
    now rewrite orb_true_r.
Qed.

Lemma month_year (t j : nat) :
  (1 + 12 * t <= j < 1 + 12 * t + 12)%nat ->
  ((Z.of_nat j + 11) / 12 = Z.of_nat (S t))%Z.
Proof.
  intros H. symmetry.
  apply (Z.div_unique _ 12 _ (Z.of_nat j + 11 - 12 * Z.of_nat (S t))); lia.
Qed.

(** Rows numbered 1, 2, ..., 12 t whose year is ceil(month / 12): the
    years are 1, ..., t and the rows of the year y are those of the months
    12 (y - 1) + 1, ..., 12 y. *)
Lemma calendar_years (t : nat) :
  forall rows : list Row.t,
  map Row.month rows = map Z.of_nat (seq 1 (12 * t)) ->
  Forall (fun row => Row.year row = ofZ ((Row.month row + 11) / 12)) rows ->
  years_seen rows = map (fun y => ofZ (Z.of_nat y)) (seq 1 t) /\
  forall y : nat, In y (seq 1 t) ->
    map Row.month (rows_of_year (ofZ (Z.of_nat y)) rows)
    = map Z.of_nat (seq (1 + 12 * (y - 1)) 12).
Proof.
  induction t as [| t IH]; intros rows Hm Hy.
  - cbn in Hm. apply map_eq_nil in Hm. subst rows. split; [reflexivity |].
    intros y [].
  - replace (12 * S t)%nat with (12 * t + 12)%nat in Hm by lia.
    rewrite seq_app, map_app in Hm. apply map_eq_app in Hm.
    destruct Hm as (r1 & c & -> & Hm1 & Hmc).
    apply Forall_app in Hy. destruct Hy as [Hy1 Hyc].
    destruct (IH r1 Hm1 Hy1) as [Hs1 Hr1].
    assert (Hc : Forall (fun r => Row.year r = ofZ (Z.of_nat (S t))) c).
    { rewrite Forall_forall in *. intros r Hr. rewrite (Hyc r Hr). f_equal.
      assert (Hin : In (Row.month r) (map Z.of_nat (seq (1 + 12 * t) 12))).
      { rewrite <- Hmc. now apply in_map. }
      apply in_map_iff in Hin. destruct Hin as (j & <- & Hj).
      apply in_seq in Hj. now apply month_year. }
    assert (E : forall y : nat, (y <> S t) ->
              same_key (ofZ (Z.of_nat y)) (ofZ (Z.of_nat (S t))) = false).
    { intros y Hne. rewrite same_key_ofZ. apply Z.eqb_neq. lia. }
    assert (Es : existsb (fun k' => same_key k' (ofZ (Z.of_nat (S t))))
                   (years_seen r1) = false).
    { rewrite Hs1. apply not_true_iff_false. intros H.
      apply existsb_exists in H. destruct H as (k & Hk & Hsame).
      apply in_map_iff in Hk. destruct Hk as (y & <- & Hin).
      apply in_seq in Hin. rewrite E in Hsame by lia. discriminate. }
    assert (Hne : c <> []).
    { intros ->. discriminate. }
    split.
    + rewrite (years_seen_app_year r1 c _ Hne Hc Es), Hs1, seq_S, map_app.
      reflexivity.
    + intros y Hin. apply in_seq in Hin. unfold rows_of_year.
      rewrite filter_app. fold (rows_of_year (ofZ (Z.of_nat y)) r1).
      destruct (Nat.eq_dec y (S t)) as [-> | Hlt].
      * rewrite (rows_of_year_unseen _ _ Es). cbn [app].
        rewrite filter_all.
        -- rewrite Hmc. cbn [Nat.sub]. now rewrite Nat.sub_0_r.
        -- rewrite Forall_forall in Hc. intros r Hr.
           rewrite (Hc r Hr). apply same_key_refl.
      * rewrite filter_none.
        -- rewrite app_nil_r. apply Hr1. apply in_seq. lia.
        -- rewrite Forall_forall in Hc. intros r Hr.
           rewrite (Hc r Hr). apply E. exact Hlt.
Qed.

Lemma sum_num_twelve (p : Q) (l : list num) :
  List.length l = 12%nat -> Forall (fun x => x = fin p) l ->
  sum_num l = fin (12 * p).
Proof.
  intros Hlen Hall.
  do 12 (destruct l as [| ? l]; [discriminate Hlen |]).
  destruct l as [| ? l]; [| discriminate Hlen].
  repeat match goal with
         | H : Forall _ (_ :: _) |- _ => inversion H; clear H; subst
         end.
  change (sum_num (map fin [p; p; p; p; p; p; p; p; p; p; p; p]) = fin (12 * p)).
  rewrite sum_num_fin. apply fin_eq. unfold Qsum. cbn [fold_right]. ring.
Qed.


